(** * PhishGuard-AI: a shallow embedding of [app.py]

    The Flask application has one source file.  This development embeds
    - the text normalizer [clean_text],
    - the scan handler [home] with its keyword highlighting,
    - the quiz handler [game], [reset_game] and the two listing routes,
    - the two SQLite tables, as lists of rows in insertion order,
    and proves the properties the specification states about them.

    Python values are modelled as follows.  A [str] is a list of Unicode
    code points ([N]).  An [int] is a [Z].  The Flask [session] and
    [request.form] are dictionaries, modelled as [gmap]s keyed by the
    (constant, ASCII) field names.  An exception aborts the handler and is
    modelled as an error outcome. *)

From Stdlib Require Import NArith ZArith List Bool Lia Ascii String Sorted.
From stdpp Require Import gmap strings.
Import ListNotations.

(** ** Python strings *)

(** A Python 3 [str]: a sequence of Unicode code points. *)
Definition str := list N.

(** The code points of a string literal of the source (all literals that
    the handlers compare or insert are ASCII). *)
Fixpoint lit (s : string) : str :=
  match s with
  | EmptyString => []
  | String a r => N_of_ascii a :: lit r
  end.

Definition char_eqb (a b : N) : bool := (a =? b)%N.

(** [a == b] on strings. *)
Fixpoint str_eqb (a b : str) : bool :=
  match a, b with
  | [], [] => true
  | x :: a', y :: b' => char_eqb x y && str_eqb a' b'
  | _, _ => false
  end.

(** [s.startswith(p)]. *)
Fixpoint startswith (p s : str) : bool :=
  match p, s with
  | [], _ => true
  | x :: p', y :: s' => char_eqb x y && startswith p' s'
  | _ :: _, [] => false
  end.

(** *** Character classes *)

(** [\s] of the [re] module on [str] patterns, which is also the class
    that [str.strip()] removes: the code points for which CPython's
    [Py_UNICODE_ISSPACE] holds. *)
Definition is_space (c : N) : bool :=
  ((9 <=? c) && (c <=? 13) || (28 <=? c) && (c <=? 32)
   || (c =? 133) || (c =? 160) || (c =? 5760)
   || (8192 <=? c) && (c <=? 8202)
   || (c =? 8232) || (c =? 8233) || (c =? 8239) || (c =? 8287)
   || (c =? 12288))%N.

(** The range [a-z]. *)
Definition is_az (c : N) : bool := ((97 <=? c) && (c <=? 122))%N.

(** The range [A-Z]. *)
Definition is_AZ (c : N) : bool := ((65 <=? c) && (c <=? 90))%N.

Definition is_ascii (c : N) : bool := (c <? 128)%N.

Definition SPACE : N := 32%N.

(** *** Case conversion *)

(** [str.lower()] on an ASCII code point. *)
Definition ascii_lower (c : N) : N := if is_AZ c then (c + 32)%N else c.

(** [str.upper()] on an ASCII code point. *)
Definition ascii_upper (c : N) : N := if is_az c then (c - 32)%N else c.

(** [str.lower()] on arbitrary text follows the Unicode case tables, which
    are not part of the repository: one code point may lower to several,
    and to ASCII letters (U+212A KELVIN SIGN lowers to [k]).  The handlers
    are therefore defined over any [lower] that agrees with the ASCII table
    on ASCII-only text, which is all that the proofs below use. *)
Class StrLower := {
  lower : str -> str;
  lower_ascii : forall s, forallb is_ascii s = true -> lower s = map ascii_lower s
}.

(** [word.capitalize()]: first character upper-cased, the rest lower-cased.
    The source applies it to the eight ASCII keywords only. *)
Definition capitalize (w : str) : str :=
  match w with
  | [] => []
  | c :: r => ascii_upper c :: map ascii_lower r
  end.

(** ** Text cleaning *)

(** Whether the pattern [http\S+] matches at the head of [s]. *)
Definition url_at (s : str) : bool :=
  match s with
  | h :: t1 :: t2 :: p :: c :: _ =>
      char_eqb h 104 && char_eqb t1 116 && char_eqb t2 116 && char_eqb p 112
      && negb (is_space c)
  | _ => false
  end.

(** [re.sub(r"http\S+", "", text)].  The scan goes left to right.  Where
    the pattern matches, the greedy [\S+] runs to the next whitespace (or
    the end), and the whole match is dropped: [inside] is set while the scan
    is within a match.  Elsewhere the character is kept. *)
Fixpoint sub_url_from (inside : bool) (s : str) : str :=
  match s with
  | [] => []
  | c :: r =>
      if inside then
        if is_space c then c :: sub_url_from false r else sub_url_from true r
      else if url_at s then sub_url_from true r
      else c :: sub_url_from false r
  end.

Definition sub_url (text : str) : str := sub_url_from false text.

(** [re.sub(r"[^a-z\s]", "", text)]. *)
Definition sub_non_alpha (text : str) : str :=
  List.filter (fun c => is_az c || is_space c) text.

(** [re.sub(r"\s+", " ", text)]: every maximal run of whitespace becomes
    one space.  [in_run] is set while the scan is within a run. *)
Fixpoint sub_spaces_from (in_run : bool) (s : str) : str :=
  match s with
  | [] => []
  | c :: r =>
      if is_space c then
        if in_run then sub_spaces_from true r else SPACE :: sub_spaces_from true r
      else c :: sub_spaces_from false r
  end.

Definition sub_spaces (text : str) : str := sub_spaces_from false text.

(** [text.lstrip()]. *)
Fixpoint lstrip (s : str) : str :=
  match s with
  | [] => []
  | c :: r => if is_space c then lstrip r else s
  end.

(** [text.rstrip()]. *)
Fixpoint rstrip (s : str) : str :=
  match s with
  | [] => []
  | c :: r =>
      match rstrip r with
      | [] => if is_space c then [] else [c]
      | r' => c :: r'
      end
  end.

(** [text.strip()]. *)
Definition strip (text : str) : str := rstrip (lstrip text).

(** [clean_text], lines 51-56. *)
Definition clean_text {L : StrLower} (text : str) : str :=
  let text := lower text in
  let text := sub_url text in
  let text := sub_non_alpha text in
  let text := sub_spaces text in
  strip text.

(** Whether [http\S+] matches anywhere in [s]. *)
Fixpoint has_url (s : str) : bool :=
  match s with
  | [] => false
  | _ :: r => url_at s || has_url r
  end.

(** The shape of cleaned text: lowercase letters and single spaces, no
    space at either end. *)
Definition wordy (s : str) : bool :=
  forallb (fun c => is_az c || char_eqb c SPACE) s.

Definition head_ok (s : str) : bool :=
  match s with
  | [] => true
  | c :: _ => negb (is_space c)
  end.

Fixpoint no_space_run (s : str) : bool :=
  match s with
  | [] => true
  | a :: r =>
      match r with
      | [] => true
      | b :: _ => negb (is_space a && is_space b)
      end && no_space_run r
  end.

(** An instance for evaluation: the ASCII table, every other code point
    left alone.  It is [str.lower()] on ASCII-only text. *)
Definition ascii_only : StrLower :=
  {| lower := map ascii_lower; lower_ascii := fun s _ => eq_refl |}.

(** ** Keyword highlighting *)

(** [s.replace(old, new)]: the occurrences of [old] are found left to
    right and do not overlap.  [skip] counts the characters of a found
    occurrence that are still to be passed over.  For an empty [old] Python
    inserts [new] before every character and at the end. *)
Fixpoint replace_from (old new : str) (skip : nat) (s : str) : str :=
  match s with
  | [] => []
  | c :: r =>
      match skip with
      | S k => replace_from old new k r
      | O =>
          if startswith old s then new ++ replace_from old new (length old - 1) r
          else c :: replace_from old new 0 r
      end
  end.

Definition replace (old new s : str) : str :=
  match old with
  | [] => new ++ flat_map (fun c => c :: new) s
  | _ :: _ => replace_from old new 0 s
  end.

(** Line 148. *)
Definition suspicious_words : list str :=
  [lit "urgent"; lit "verify"; lit "click"; lit "password";
   lit "bank"; lit "account"; lit "login"; lit "confirm"].

Definition span_open : str := lit "<span class='highlight'>".
Definition span_close : str := lit "</span>".

(** The f-string of lines 159 and 163. *)
Definition span (w : str) : str := span_open ++ w ++ span_close.

(** The body of the loop of lines 156-164, for one [word]. *)
Definition highlight_word (highlighted_text word : str) : str :=
  let highlighted_text := replace word (span word) highlighted_text in
  replace (capitalize word) (span (capitalize word)) highlighted_text.

(** The loop of lines 156-164. *)
Definition highlight (email_text : str) : str :=
  fold_left highlight_word suspicious_words email_text.

(** *** The highlighting as the specification words it

    One pass over the text: wherever one of the listed forms occurs, the
    occurrence is wrapped in the marker and the pass goes on behind it;
    every other character is copied. *)
Definition form_at (forms : list str) (s : str) : option str :=
  find (fun w => startswith w s) forms.

Fixpoint wrap_from (forms : list str) (skip : nat) (s : str) : str :=
  match s with
  | [] => []
  | c :: r =>
      match skip with
      | S k => wrap_from forms k r
      | O =>
          match form_at forms s with
          | Some w => span w ++ wrap_from forms (length w - 1) r
          | None => c :: wrap_from forms 0 r
          end
      end
  end.

Definition wrap_occurrences (forms : list str) (s : str) : str :=
  wrap_from forms 0 s.

(** The exact lowercase form and the capitalized form of every word. *)
Definition highlight_forms : list str :=
  flat_map (fun w => [w; capitalize w]) suspicious_words.

(** *** Side conditions on the keyword list

    The loop makes sixteen passes and the specification words one.  The
    two agree because of how the sixteen forms and the marker are spelled;
    the conditions are decidable and are evaluated on the lists of the
    source. *)

(** Neither string is a prefix of the other. *)
Definition diverge (a b : str) : bool :=
  negb (startswith a b) && negb (startswith b a).

(** No occurrence of [q] starts inside [block], whatever text follows the
    block. *)
Fixpoint clear_of (q block : str) : bool :=
  match block with
  | [] => true
  | _ :: r => diverge q block && clear_of q r
  end.

(** U+003C, the first character of the marker. *)
Definition LT : N := 60%N.

(** The pass for [p] may follow the passes for [done]: [p] is not empty
    and has no [<], no occurrence of [p] starts inside a wrapped form, and
    no earlier form starts inside an occurrence of [p]. *)
Definition compatible (done : list str) (p : str) : bool :=
  negb (str_eqb p []) && forallb (fun c => negb (char_eqb c LT)) p
  && forallb (fun q => clear_of p (span q) && clear_of q p) done.

Fixpoint all_compatible (done todo : list str) : bool :=
  match todo with
  | [] => true
  | p :: rest => compatible done p && all_compatible (done ++ [p]) rest
  end.

(** The all-caps spelling of a word. *)
Definition upper_word (w : str) : str := map ascii_upper w.

(** [block] stays out of every occurrence of a form: no form starts
    inside it, and its first character is in no form behind the first
    position. *)
Definition untouched (forms : list str) (block : str) : bool :=
  match block with
  | [] => false
  | z :: _ =>
      forallb (fun q => clear_of q block && negb (existsb (char_eqb z) (tl q)))
              forms
  end.

(** ** The classifier *)

(** The fitted pipeline is an object of scikit-learn, unpickled from
    [model/fraud_model.pkl] when that file exists and trained otherwise.
    The handlers use two of its methods: [predict x] stands for
    [model.predict([x])[0]], [predict_proba_max x] for
    [model.predict_proba([x]).max()] and [percent p] for
    [round(p * 100, 2)] on floats. *)
Class Classifier := {
  float : Type;
  predict : str -> str;
  predict_proba_max : str -> float;
  percent : float -> float
}.

(** An instance for evaluation: a pipeline that answers [label] with
    probability [p] (in hundredths of a percent) for every text. *)
Definition constant_model (label : str) (p : Z) : Classifier :=
  {| float := Z; predict := fun _ => label;
     predict_proba_max := fun _ => p; percent := fun x => x |}.

Definition always_fraud : Classifier := constant_model (lit "FRAUD") 9000.
Definition always_safe : Classifier := constant_model (lit "SAFE") 7500.

(** ** Requests, pages and outcomes *)

Inductive method := GET | POST.

Record request := {
  req_method : method;
  form : gmap string str
}.

(** Requests as a browser sends them. *)
Definition get_request : request := {| req_method := GET; form := ∅ |}.

Definition post_email (text : str) : request :=
  {| req_method := POST; form := {[ "email" := text ]} |}.

Definition post_answer (choice correct reason : str) : request :=
  {| req_method := POST;
     form := {[ "choice" := choice; "correct" := correct;
                "reason" := reason ]} |}.

(** A POST with no field at all, as a client other than the rendered form
    can send it. *)
Definition post_nothing : request := {| req_method := POST; form := ∅ |}.

(** An answer to the first question of the quiz, and a short message. *)
Definition right_answer : request :=
  post_answer (lit "FRAUD") (lit "FRAUD") (lit "Creates urgency.").

Definition short_message : request := post_email (lit "Hi Bob").

(** How a handler ends: with its value, or with the exception that
    [request.form[key]] raises for a missing field (Flask answers 400 Bad
    Request), or with the [KeyError] of [session[key]], or with the
    [OverflowError] that [sqlite3] raises when it is handed an [int] that
    an SQLite INTEGER cannot hold. *)
Inductive outcome (A : Type) :=
| Ok (a : A)
| BadRequestKeyError (key : string)
| KeyError (key : string)
| OverflowError.
Arguments Ok {A} a.
Arguments BadRequestKeyError {A} key.
Arguments KeyError {A} key.
Arguments OverflowError {A}.

Inductive Level := Beginner | Intermediate | Expert.

Record QuizQuestion := {
  q_text : str;
  q_answer : str;
  q_reason : str
}.

(** Lines 177-198. *)
Definition QUIZ_QUESTIONS : list QuizQuestion :=
  [ {| q_text := lit "Urgent! Verify your account immediately.";
       q_answer := lit "FRAUD";
       q_reason := lit "Creates urgency and asks for action." |};
    {| q_text := lit "Meeting scheduled tomorrow at 3 PM.";
       q_answer := lit "SAFE";
       q_reason := lit "Normal internal communication." |};
    {| q_text := lit "Click here to reset your password.";
       q_answer := lit "FRAUD";
       q_reason := lit "Suspicious link asking for credentials." |};
    {| q_text := lit "Invoice attached. Please review.";
       q_answer := lit "SAFE";
       q_reason := lit "Common business email." |} ].

(** The default of [random_choice] below; [QUIZ_QUESTIONS] is not empty
    and the default is never drawn. *)
Definition no_question : QuizQuestion :=
  {| q_text := []; q_answer := []; q_reason := [] |}.

(** [random.choice(seq)] for a non-empty [seq], given the random draw. *)
Definition random_choice {A} (draw : nat) (seq : list A) (d : A) : A :=
  nth (draw mod length seq) seq d.

(** The level of lines 225-230. *)
Definition level_of (score : Z) : Level :=
  if (score <? 3)%Z then Beginner
  else if (score <? 6)%Z then Intermediate
  else Expert.

(** U+2705 and U+274C, each followed by the text of lines 219 and 221. *)
Definition correct_prefix : str := 9989%N :: lit " Correct! ".
Definition wrong_prefix : str := 10060%N :: lit " Wrong! ".

(** The [int]s that [sqlite3] binds to a parameter of a statement: those
    of a signed 64-bit integer, from [-2^63] to [2^63 - 1].  A Python [int]
    has no bound, and the session keeps what it is given. *)
Definition sqlite_int (n : Z) : bool :=
  ((- 2 ^ 63 <=? n) && (n <? 2 ^ 63))%Z.

(** [INTEGER PRIMARY KEY AUTOINCREMENT]: one more than the largest id the
    table has held, 1 for an empty table.  No route deletes a row, so the
    largest id ever held is the largest id present. *)
Definition next_id (ids : list Z) : Z := (1 + fold_right Z.max 0 ids)%Z.

(** [ORDER BY id DESC], as an insertion sort on the key. *)
Fixpoint insert_desc {A} (key : A -> Z) (x : A) (rows : list A) : list A :=
  match rows with
  | [] => [x]
  | y :: r => if (key y <? key x)%Z then x :: rows else y :: insert_desc key x r
  end.

Definition order_by_desc {A} (key : A -> Z) (rows : list A) : list A :=
  fold_right (insert_desc key) [] rows.

Section App.
Context {L : StrLower} {C : Classifier}.

(** *** The two tables (lines 27-43), rows in insertion order *)

Record ScanRecord := {
  scan_id : Z;
  scan_email : str;
  scan_result : str;
  scan_confidence : float
}.

Record GameScoreRecord := {
  gs_id : Z;
  gs_score : Z;
  gs_total : Z;
  gs_level : Level
}.

Record database := {
  scans : list ScanRecord;
  game_scores : list GameScoreRecord
}.

(** What a handler can read and write: the session of the client and
    the database file. *)
Record state := {
  session : gmap string Z;
  db : database
}.

(** [init_db] on a fresh file, and a client without a session cookie. *)
Definition empty_db : database := {| scans := []; game_scores := [] |}.
Definition initial_state : state := {| session := ∅; db := empty_db |}.

(** *** Handlers as state transformers that may raise *)

Definition M (A : Type) : Type := state -> outcome A * state.

Definition ret {A} (a : A) : M A := fun st => (Ok a, st).

Definition bind {A B} (c : M A) (k : A -> M B) : M B :=
  fun st =>
    match c st with
    | (Ok a, st') => k a st'
    | (BadRequestKeyError key, st') => (BadRequestKeyError key, st')
    | (KeyError key, st') => (KeyError key, st')
    | (OverflowError, st') => (OverflowError, st')
    end.

(** [request.form[key]]. *)
Definition form_get (req : request) (key : string) : M str :=
  fun st =>
    match form req !! key with
    | Some v => (Ok v, st)
    | None => (BadRequestKeyError key, st)
    end.

(** [key in session]. *)
Definition session_contains (key : string) : M bool :=
  fun st => (Ok (bool_decide (is_Some (session st !! key))), st).

(** [session[key]]. *)
Definition session_get (key : string) : M Z :=
  fun st =>
    match session st !! key with
    | Some v => (Ok v, st)
    | None => (KeyError key, st)
    end.

(** [session[key] = v]. *)
Definition session_set (key : string) (v : Z) : M unit :=
  fun st => (Ok tt, {| session := <[key := v]> (session st); db := db st |}).

(** [session.clear()]. *)
Definition session_clear : M unit :=
  fun st => (Ok tt, {| session := ∅; db := db st |}).

(** [INSERT INTO scans (email, result, confidence) VALUES (?, ?, ?)]. *)
Definition insert_scan (email result : str) (confidence : float) : M unit :=
  fun st =>
    let row := {| scan_id := next_id (map scan_id (scans (db st)));
                  scan_email := email; scan_result := result;
                  scan_confidence := confidence |} in
    (Ok tt, {| session := session st;
               db := {| scans := scans (db st) ++ [row];
                        game_scores := game_scores (db st) |} |}).

(** [INSERT INTO game_scores (score, total, level) VALUES (?, ?, ?)].
    The statement raises, and adds no row, when [score] or [total] is not
    an [int] that [sqlite3] binds. *)
Definition insert_game_score (score total : Z) (level : Level) : M unit :=
  fun st =>
    if sqlite_int score && sqlite_int total then
      let row := {| gs_id := next_id (map gs_id (game_scores (db st)));
                    gs_score := score; gs_total := total;
                    gs_level := level |} in
      (Ok tt, {| session := session st;
                 db := {| scans := scans (db st);
                          game_scores := game_scores (db st) ++ [row] |} |})
    else (OverflowError, st).

(** The columns that the two listings select. *)
Definition scan_fields (r : ScanRecord) : str * str * float :=
  (scan_email r, scan_result r, scan_confidence r).

Definition score_fields (r : GameScoreRecord) : Z * Z * Level :=
  (gs_score r, gs_total r, gs_level r).

(** [SELECT email, result, confidence FROM scans ORDER BY id DESC]. *)
Definition select_scans : M (list (str * str * float)) :=
  fun st =>
    (Ok (map scan_fields (order_by_desc scan_id (scans (db st)))), st).

(** [SELECT score, total, level FROM game_scores ORDER BY id DESC]. *)
Definition select_game_scores : M (list (Z * Z * Level)) :=
  fun st =>
    (Ok (map score_fields (order_by_desc gs_id (game_scores (db st)))), st).
End App.

Notation "'do' x <- c ; k" := (bind c (fun x => k))
  (at level 10, x name, c at level 100, k at level 200).
Notation "'exec' c ; k" := (bind c (fun _ => k))
  (at level 10, c at level 100, k at level 200).

Section Routes.
Context {L : StrLower} {C : Classifier}.

Record scan_page := {
  result : option str;
  confidence : option float;
  email_text : str;
  highlighted_text : str
}.

Record game_page := {
  question : QuizQuestion;
  feedback : option str;
  score : Z;
  total : Z;
  level : Level
}.

(** The route [/], lines 125-172. *)
Definition home (req : request) : M scan_page :=
  match req_method req with
  | POST =>
      do email_text <- form_get req "email";
      let cleaned_email := clean_text email_text in
      let result := predict cleaned_email in
      let confidence := percent (predict_proba_max cleaned_email) in
      exec insert_scan email_text result confidence;
      let highlighted_text :=
        if str_eqb result (lit "FRAUD") then highlight email_text
        else email_text in
      ret {| result := Some result; confidence := Some confidence;
             email_text := email_text; highlighted_text := highlighted_text |}
  | GET =>
      ret {| result := None; confidence := None;
             email_text := []; highlighted_text := [] |}
  end.

(** The route [/game], lines 200-248.  [draw] is the random draw of
    line 208. *)
Definition game (req : request) (draw : nat) : M game_page :=
  do started <- session_contains "score";
  exec (if started then ret tt
        else exec session_set "score" 0; session_set "total" 0);
  let question := random_choice draw QUIZ_QUESTIONS no_question in
  do feedback <-
    match req_method req with
    | POST =>
        do user_choice <- form_get req "choice";
        do correct_answer <- form_get req "correct";
        do reason <- form_get req "reason";
        do t <- session_get "total";
        exec session_set "total" (t + 1);
        if str_eqb user_choice correct_answer then
          do s <- session_get "score";
          exec session_set "score" (s + 1);
          ret (Some (correct_prefix ++ reason))
        else ret (Some (wrong_prefix ++ reason))
    | GET => ret None
    end;
  do score <- session_get "score";
  let level := level_of score in
  do row_score <- session_get "score";
  do row_total <- session_get "total";
  exec insert_game_score row_score row_total level;
  do page_score <- session_get "score";
  do page_total <- session_get "total";
  ret {| question := question; feedback := feedback;
         score := page_score; total := page_total; level := level |}.

(** The route [/reset-game], lines 250-253; the redirect makes the
    client request [/game] next. *)
Definition reset_game : M unit := session_clear.

(** The route [/history], lines 259-267. *)
Definition history : M (list (str * str * float)) := select_scans.

(** The route [/scores], lines 273-281. *)
Definition scores : M (list (Z * Z * Level)) := select_game_scores.

(** *** Runs of the application *)

Inductive http_request :=
| Home (req : request)
| Game (req : request) (draw : nat)
| ResetGame
| History
| Scores.

(** The state a request leaves behind.  A handler that raises leaves
    the writes it made before. *)
Definition step (st : state) (r : http_request) : state :=
  match r with
  | Home req => snd (home req st)
  | Game req draw => snd (game req draw st)
  | ResetGame => snd (reset_game st)
  | History => snd (history st)
  | Scores => snd (scores st)
  end.

Definition run (st : state) (rs : list http_request) : state :=
  fold_left step rs st.

(** A scan submission: a POST to [/] with the text in the field
    [email]. *)
Definition submit (text : str) : http_request := Home (post_email text).

(** A quiz answer: a POST to [/game] with the three fields. *)
Definition answer (choice correct reason : str) (draw : nat) : http_request :=
  Game (post_answer choice correct reason) draw.

(** The text a request submits for scanning: the field [email] of a
    POST to [/]. *)
Definition submitted (r : http_request) : option str :=
  match r with
  | Home req =>
      match req_method req with
      | POST => form req !! "email"
      | GET => None
      end
  | _ => None
  end.

(** The texts submitted in a run, first to last. *)
Definition submissions (rs : list http_request) : list str :=
  omap submitted rs.

(** The session of a client that has opened the quiz. *)
Definition started_session : gmap string Z :=
  <["total" := 0%Z]> (<["score" := 0%Z]> ∅).

(** The game invariant on a session that holds a score and a total. *)
Definition session_started (s : gmap string Z) : Prop :=
  exists sc t, s !! "score" = Some sc /\ s !! "total" = Some t
               /\ (0 <= sc <= t)%Z.

(** A session either has no score yet, or it is started. *)
Definition session_ok (s : gmap string Z) : Prop :=
  s !! "score" = None \/ session_started s.

(** A request to [/game]. *)
Definition game_request (r : request * nat) : http_request :=
  Game (fst r) (snd r).

Definition row_ok (r : GameScoreRecord) : Prop :=
  (0 <= gs_score r <= gs_total r)%Z.

Definition level_ok (r : GameScoreRecord) : Prop :=
  gs_level r = level_of (gs_score r).

(** A started session under the empty database, and one that has seen
    five answers, three of them right. *)
Definition started_state : state :=
  {| session := started_session; db := empty_db |}.

Definition midgame_state : state :=
  {| session := <["total" := 5%Z]> (<["score" := 3%Z]> ∅); db := empty_db |}.

(** A session whose score and total are [2^63], one more than the largest
    [int] that [sqlite3] binds.  The session travels in a cookie signed
    with the key of line 13, so a client can present it. *)
Definition huge_state : state :=
  {| session := <["total" := (2 ^ 63)%Z]> (<["score" := (2 ^ 63)%Z]> ∅);
     db := empty_db |}.

(** The row a submission is to leave in [scans], without its id. *)
Definition scan_of (text : str) : str * str * float :=
  (text, predict (clean_text text),
   percent (predict_proba_max (clean_text text))).
End Routes.

(** ** Further definitions for the properties of the code *)

(** The empty text, or text that starts with whitespace. *)
Definition starts_blank (s : str) : bool :=
  match s with
  | [] => true
  | c :: _ => is_space c
  end.

(** Text of lowercase letters and whitespace only: what step 3 of
    [clean_text] leaves alone. *)
Definition letters_and_spaces (s : str) : bool :=
  forallb (fun c => is_az c || is_space c) s.

(** Text without a lowercase letter. *)
Definition no_lowercase (s : str) : bool :=
  forallb (fun c => negb (is_az c)) s.

(** The shape of cleaned text, in one predicate. *)
Definition shaped (t : str) : Prop :=
  wordy t = true /\ no_space_run t = true /\ head_ok t = true /\ rstrip t = t.

(** A character that is in none of the sixteen forms. *)
Definition in_no_form (c : N) : bool :=
  forallb (fun q => negb (existsb (char_eqb c) q)) highlight_forms.

(** No two forms get in each other's way: no form starts inside another
    form or inside itself behind the first character, and no form is a
    prefix of another. *)
Definition forms_apart (forms : list str) : bool :=
  forallb (fun w =>
    forallb (fun q => clear_of w (tl q) && (str_eqb q w || diverge q w)) forms)
    forms.

(** The three levels in their order. *)
Definition level_rank (l : Level) : Z :=
  match l with
  | Beginner => 0
  | Intermediate => 1
  | Expert => 2
  end.

(** The field that lines 211-213 find missing first, if any. *)
Definition first_missing (f : gmap string str) : option string :=
  match f !! "choice", f !! "correct", f !! "reason" with
  | None, _, _ => Some "choice"
  | Some _, None, _ => Some "correct"
  | Some _, Some _, None => Some "reason"
  | Some _, Some _, Some _ => None
  end.

(** The ids [1, 2, ..., n]. *)
Definition first_ids (n : nat) : list Z := map Z.of_nat (seq 1 n).



Section MoreRoutes.
Context {C : Classifier}.

(** Two results of [/game] that differ at most in the question shown. *)
Definition same_but_question
    (r1 r2 : outcome game_page * state) : Prop :=
  snd r1 = snd r2
  /\ match fst r1, fst r2 with
     | Ok p1, Ok p2 =>
         feedback p1 = feedback p2 /\ score p1 = score p2
         /\ total p1 = total p2 /\ level p1 = level p2
     | BadRequestKeyError k1, BadRequestKeyError k2 => k1 = k2
     | KeyError k1, KeyError k2 => k1 = k2
     | OverflowError, OverflowError => True
     | _, _ => False
     end.

End MoreRoutes.

(** * Properties *)

(** ** The text normalizer *)

Section CleanText.
Context {L : StrLower}.

Lemma is_az_spec c : is_az c = true <-> (97 <= c <= 122)%N.
Proof. unfold is_az. rewrite andb_true_iff, !N.leb_le. lia. Qed.

Lemma is_AZ_spec c : is_AZ c = true <-> (65 <= c <= 90)%N.
Proof. unfold is_AZ. rewrite andb_true_iff, !N.leb_le. lia. Qed.

Lemma is_space_spec c :
  is_space c = true <->
  ((9 <= c <= 13) \/ (28 <= c <= 32) \/ c = 133 \/ c = 160 \/ c = 5760
   \/ (8192 <= c <= 8202) \/ c = 8232 \/ c = 8233 \/ c = 8239
   \/ c = 8287 \/ c = 12288)%N.
Proof.
  unfold is_space.
  rewrite !orb_true_iff, !andb_true_iff, !N.leb_le, !N.eqb_eq. lia.
Qed.

Lemma wordy_char_spec c :
  is_az c || char_eqb c SPACE = true <-> ((97 <= c <= 122) \/ c = 32)%N.
Proof.
  unfold char_eqb, SPACE. rewrite orb_true_iff, is_az_spec, N.eqb_eq. lia.
Qed.

Lemma az_not_space c : is_az c = true -> is_space c = false.
Proof.
  intros Hc%is_az_spec. destruct (is_space c) eqn:E; [| done].
  apply is_space_spec in E. lia.
Qed.

Lemma space_wordy c :
  is_az c || char_eqb c SPACE = true -> is_space c = true -> c = SPACE.
Proof.
  intros Hw%wordy_char_spec Hs%is_space_spec. unfold SPACE. lia.
Qed.

Lemma ascii_lower_wordy s : wordy s = true -> map ascii_lower s = s.
Proof.
  induction s as [| c r IH]; simpl; [done |].
  intros [Hc%wordy_char_spec Hr]%andb_true_iff. rewrite IH by done. f_equal.
  unfold ascii_lower. destruct (is_AZ c) eqn:E; [| done].
  apply is_AZ_spec in E. lia.
Qed.

Lemma wordy_ascii s : wordy s = true -> forallb is_ascii s = true.
Proof.
  induction s as [| c r IH]; simpl; [done |].
  intros [Hc%wordy_char_spec Hr]%andb_true_iff. rewrite IH by done.
  rewrite andb_true_r. unfold is_ascii. apply N.ltb_lt. lia.
Qed.

Lemma lower_wordy s : wordy s = true -> lower s = s.
Proof.
  intros Hw. rewrite lower_ascii by now apply wordy_ascii.
  now apply ascii_lower_wordy.
Qed.

Lemma sub_url_no_url s : has_url s = false -> sub_url s = s.
Proof.
  unfold sub_url. induction s as [| c r IH]; [done |].
  intros [Hu Hr]%orb_false_iff.
  change (sub_url_from false (c :: r))
    with (if url_at (c :: r) then sub_url_from true r
          else c :: sub_url_from false r).
  rewrite Hu, IH; done.
Qed.

Lemma sub_non_alpha_wordy s : wordy s = true -> sub_non_alpha s = s.
Proof.
  unfold sub_non_alpha. induction s as [| c r IH]; simpl; [done |].
  intros [Hc%wordy_char_spec Hr]%andb_true_iff.
  assert (is_az c || is_space c = true) as ->.
  { rewrite orb_true_iff, is_az_spec, is_space_spec. lia. }
  now rewrite IH.
Qed.

Lemma sub_spaces_from_fixed s b :
  wordy s = true -> no_space_run s = true ->
  (b = true -> head_ok s = true) ->
  sub_spaces_from b s = s.
Proof.
  revert b. induction s as [| c r IH]; intros b Hw Hn Hb; [done |].
  simpl in Hw. apply andb_true_iff in Hw as [Hc Hr].
  simpl in Hn. apply andb_true_iff in Hn as [Hcr Hn].
  simpl. destruct (is_space c) eqn:Ec.
  - destruct b.
    + specialize (Hb eq_refl). simpl in Hb. rewrite Ec in Hb. done.
    + rewrite <- (space_wordy c Hc Ec). f_equal.
      apply IH; [done | done |]. intros _.
      destruct r as [| d r']; [done |]. simpl.
      simpl in Hcr. now destruct (is_space d).
  - f_equal. apply IH; [done | done | done].
Qed.

Lemma lstrip_head_ok s : head_ok s = true -> lstrip s = s.
Proof. destruct s as [| c r]; simpl; [done |]. now destruct (is_space c). Qed.

Lemma head_ok_lstrip s : head_ok (lstrip s) = true.
Proof.
  induction s as [| c r IH]; simpl; [done |].
  destruct (is_space c) eqn:E; [done |]. simpl. now rewrite E.
Qed.

Lemma rstrip_cons c r :
  rstrip (c :: r) =
  match rstrip r with
  | [] => if is_space c then [] else [c]
  | _ :: _ => c :: rstrip r
  end.
Proof. simpl. now destruct (rstrip r). Qed.

Lemma rstrip_rstrip s : rstrip (rstrip s) = rstrip s.
Proof.
  induction s as [| c r IH]; [done |].
  rewrite rstrip_cons. destruct (rstrip r) as [| d r'] eqn:E.
  - destruct (is_space c) eqn:Ec; [done |]. simpl. now rewrite Ec.
  - rewrite rstrip_cons, IH. done.
Qed.

Lemma head_ok_rstrip s : head_ok s = true -> head_ok (rstrip s) = true.
Proof.
  destruct s as [| c r]; [done |]. rewrite rstrip_cons. cbn [head_ok].
  intros Hc. destruct (rstrip r); [| done].
  destruct (is_space c) eqn:E; simpl; [done | now rewrite E].
Qed.

Lemma strip_strip s : strip (strip s) = strip s.
Proof.
  unfold strip. rewrite lstrip_head_ok.
  - apply rstrip_rstrip.
  - apply head_ok_rstrip, head_ok_lstrip.
Qed.

(** *** The shape of cleaned text *)

Lemma wordy_sub_spaces_from b s :
  forallb (fun c => is_az c || is_space c) s = true ->
  wordy (sub_spaces_from b s) = true.
Proof.
  revert b. induction s as [| c r IH]; intros b; simpl; [done |].
  intros [Hc Hr]%andb_true_iff. destruct (is_space c) eqn:Ec.
  - destruct b; simpl; auto.
  - simpl. rewrite orb_false_r in Hc. rewrite Hc. simpl. auto.
Qed.

Lemma forallb_filter (f : N -> bool) s : forallb f (List.filter f s) = true.
Proof.
  induction s as [| c r IH]; simpl; [done |].
  destruct (f c) eqn:E; simpl; [now rewrite E |done].
Qed.

Lemma wordy_lstrip s : wordy s = true -> wordy (lstrip s) = true.
Proof.
  induction s as [| c r IH]; simpl; [done |].
  intros [Hc Hr]%andb_true_iff. destruct (is_space c); [auto |].
  simpl. now rewrite Hc.
Qed.

Lemma wordy_rstrip s : wordy s = true -> wordy (rstrip s) = true.
Proof.
  induction s as [| c r IH]; [done |]. rewrite rstrip_cons. simpl.
  intros [Hc Hr]%andb_true_iff. destruct (rstrip r) as [| d r'].
  - destruct (is_space c); simpl; [done | now rewrite Hc].
  - change (wordy (c :: d :: r')) with
      ((is_az c || char_eqb c SPACE) && wordy (d :: r')).
    rewrite Hc. now apply IH.
Qed.

Lemma head_ok_sub_spaces s : head_ok (sub_spaces_from true s) = true.
Proof.
  induction s as [| c r IH]; simpl; [done |].
  destruct (is_space c) eqn:E; [done |]. simpl. now rewrite E.
Qed.

Lemma no_space_run_cons c r :
  no_space_run (c :: r) = (negb (is_space c) || head_ok r) && no_space_run r.
Proof.
  destruct r as [| d r']; simpl.
  - now rewrite orb_true_r.
  - now rewrite negb_andb.
Qed.

Lemma no_space_run_sub_spaces b s : no_space_run (sub_spaces_from b s) = true.
Proof.
  revert b. induction s as [| c r IH]; intros b; [done |].
  cbn [sub_spaces_from]. destruct (is_space c) eqn:Ec.
  - destruct b; [apply IH |].
    rewrite no_space_run_cons, head_ok_sub_spaces, IH. now rewrite orb_true_r.
  - rewrite no_space_run_cons, Ec, IH. done.
Qed.

Lemma no_space_run_lstrip s :
  no_space_run s = true -> no_space_run (lstrip s) = true.
Proof.
  induction s as [| c r IH]; [done |]. rewrite no_space_run_cons.
  intros [Hc Hr]%andb_true_iff. cbn [lstrip].
  destruct (is_space c) eqn:E; [auto |].
  rewrite no_space_run_cons, E, Hr. done.
Qed.

Lemma no_space_run_rstrip s :
  no_space_run s = true -> no_space_run (rstrip s) = true.
Proof.
  induction s as [| c r IH]; [done |]. rewrite no_space_run_cons.
  intros [Hc Hr]%andb_true_iff. rewrite rstrip_cons.
  destruct (rstrip r) as [| d r'] eqn:E.
  - destruct (is_space c); done.
  - rewrite no_space_run_cons, (IH Hr), andb_true_r.
    apply orb_true_iff in Hc as [Hc | Hc]; [now rewrite Hc |].
    pose proof (head_ok_rstrip r Hc) as Hh. rewrite E in Hh.
    rewrite Hh. apply orb_true_r.
Qed.

(** What [clean_text] returns is in that shape, whatever it is given. *)
Lemma clean_text_shape text :
  let t := clean_text text in
  wordy t = true /\ no_space_run t = true /\ head_ok t = true
  /\ rstrip t = t.
Proof.
  unfold clean_text, strip, sub_spaces. repeat split.
  - apply wordy_rstrip, wordy_lstrip, wordy_sub_spaces_from, forallb_filter.
  - apply no_space_run_rstrip, no_space_run_lstrip, no_space_run_sub_spaces.
  - apply head_ok_rstrip, head_ok_lstrip.
  - apply rstrip_rstrip.
Qed.

Lemma clean_text_fixed t :
  wordy t = true -> no_space_run t = true -> head_ok t = true ->
  rstrip t = t -> has_url t = false ->
  clean_text t = t.
Proof.
  intros Hw Hn Hh Hr Hu. unfold clean_text, strip, sub_spaces.
  rewrite lower_wordy, sub_url_no_url, sub_non_alpha_wordy by done.
  rewrite sub_spaces_from_fixed by done.
  now rewrite lstrip_head_ok.
Qed.

(** *** Lengths: no step makes the text longer *)

Lemma sub_url_from_length b s : length (sub_url_from b s) <= length s.
Proof.
  revert b. induction s as [| c r IH]; intros b; [done |].
  cbn [sub_url_from]. destruct b.
  - destruct (is_space c); simpl; [specialize (IH false) | specialize (IH true)]; lia.
  - destruct (url_at (c :: r)); simpl; [specialize (IH true) | specialize (IH false)]; lia.
Qed.

Lemma sub_url_shorter s :
  has_url s = true -> length (sub_url s) < length s.
Proof.
  unfold sub_url. induction s as [| c r IH]; [done |].
  cbn [has_url sub_url_from]. destruct (url_at (c :: r)).
  - intros _. pose proof (sub_url_from_length true r). simpl. lia.
  - simpl. intros Hr. specialize (IH Hr). lia.
Qed.

Lemma sub_non_alpha_length s : length (sub_non_alpha s) <= length s.
Proof. apply List.filter_length_le. Qed.

Lemma sub_spaces_from_length b s : length (sub_spaces_from b s) <= length s.
Proof.
  revert b. induction s as [| c r IH]; intros b; [done |]. simpl.
  destruct (is_space c); [destruct b |]; simpl;
    try (specialize (IH true); lia); specialize (IH false); lia.
Qed.

Lemma lstrip_length s : length (lstrip s) <= length s.
Proof.
  induction s as [| c r IH]; [done |]. simpl.
  destruct (is_space c); simpl; lia.
Qed.

Lemma rstrip_length s : length (rstrip s) <= length s.
Proof.
  induction s as [| c r IH]; [done |]. rewrite rstrip_cons.
  destruct (rstrip r); [destruct (is_space c) |]; simpl in *; lia.
Qed.

Lemma clean_text_shrinks_urls t :
  wordy t = true -> has_url t = true -> length (clean_text t) < length t.
Proof.
  intros Hw Hu. unfold clean_text, strip, sub_spaces.
  rewrite lower_wordy by done.
  pose proof (sub_url_shorter t Hu).
  pose proof (sub_non_alpha_length (sub_url t)).
  pose proof (sub_spaces_from_length false (sub_non_alpha (sub_url t))).
  pose proof (lstrip_length (sub_spaces_from false (sub_non_alpha (sub_url t)))).
  pose proof (rstrip_length
    (lstrip (sub_spaces_from false (sub_non_alpha (sub_url t))))).
  lia.
Qed.

(** C1, as amended.  Cleaning cleaned text changes nothing exactly when
    the cleaned text holds no match of the URL pattern [http\S+]; a match
    can arise in step 3, when the removal of a digit or of punctuation
    joins [http] to what follows it. *)
Theorem clean_text_idempotent_iff text :
  clean_text (clean_text text) = clean_text text
  <-> has_url (clean_text text) = false.
Proof.
  destruct (clean_text_shape text) as (Hw & Hn & Hh & Hr).
  split.
  - intros Heq. destruct (has_url (clean_text text)) eqn:Hu; [| done].
    pose proof (clean_text_shrinks_urls _ Hw Hu) as Hlt.
    rewrite Heq in Hlt. lia.
  - intros Hu. now apply clean_text_fixed.
Qed.
End CleanText.

(** ** Keyword highlighting: sixteen passes against one *)

Section Replace.

Lemma char_eqb_eq a b : char_eqb a b = true <-> a = b.
Proof. apply N.eqb_eq. Qed.

Lemma str_eqb_eq a b : str_eqb a b = true <-> a = b.
Proof.
  revert b. induction a as [| x a IH]; intros [| y b]; simpl; try easy.
  rewrite andb_true_iff, char_eqb_eq, IH. split.
  - now intros [-> ->].
  - intros [= -> ->]. done.
Qed.

Lemma startswith_app p x : startswith p (p ++ x) = true.
Proof.
  induction p as [| a p IH]; simpl; [done |].
  rewrite IH, andb_true_r. now apply char_eqb_eq.
Qed.

Lemma startswith_split p s :
  startswith p s = true -> exists x, s = p ++ x.
Proof.
  revert s. induction p as [| a p IH]; intros s; simpl.
  - intros _. now exists s.
  - destruct s as [| c r]; [done |].
    intros [->%char_eqb_eq [x ->]%IH]%andb_true_iff. now exists x.
Qed.

(** A prefix of [a ++ x] is a prefix of [a], or [a] is a prefix of it. *)
Lemma startswith_within p a x :
  startswith p (a ++ x) = true ->
  startswith p a = true \/ startswith a p = true.
Proof.
  revert a. induction p as [| c p IH]; intros a; simpl; [auto |].
  destruct a as [| d a]; simpl; [auto |].
  intros [Hc Hp]%andb_true_iff. apply char_eqb_eq in Hc as ->.
  destruct (IH _ Hp) as [-> | ->]; [left | right];
    rewrite andb_true_r; now apply char_eqb_eq.
Qed.

Lemma diverge_app q a x : diverge q a = true -> startswith q (a ++ x) = false.
Proof.
  unfold diverge. intros [Hq Ha]%andb_true_iff.
  destruct (startswith q (a ++ x)) eqn:E; [| done].
  apply startswith_within in E as [E | E]; rewrite E in *; done.
Qed.

(** *** One pass of [replace] *)

Lemma replace_from_skip old new k s :
  replace_from old new k s = replace_from old new 0 (skipn k s).
Proof.
  revert k. induction s as [| c r IH]; intros [| k]; try done.
  simpl. apply IH.
Qed.

Lemma replace_nonempty old new s :
  old <> [] -> replace old new s = replace_from old new 0 s.
Proof. now destruct old. Qed.

Lemma replace_from_hit old new x :
  old <> [] ->
  replace_from old new 0 (old ++ x) = new ++ replace_from old new 0 x.
Proof.
  destruct old as [| a old]; [done |]. intros _.
  change ((a :: old) ++ x) with (a :: (old ++ x)).
  cbn [replace_from].
  change (a :: (old ++ x)) with ((a :: old) ++ x).
  rewrite startswith_app. f_equal.
  rewrite replace_from_skip. simpl. rewrite Nat.sub_0_r.
  now rewrite skipn_app, skipn_all, Nat.sub_diag.
Qed.

Lemma replace_from_miss old new c r :
  startswith old (c :: r) = false ->
  replace_from old new 0 (c :: r) = c :: replace_from old new 0 r.
Proof. intros E. cbn [replace_from]. now rewrite E. Qed.

(** A pass copies a block that no occurrence can start in. *)
Lemma replace_from_block old new block x :
  clear_of old block = true ->
  replace_from old new 0 (block ++ x) = block ++ replace_from old new 0 x.
Proof.
  induction block as [| c r IH]; [done |].
  cbn [clear_of]. intros [Hd Hr]%andb_true_iff.
  change ((c :: r) ++ x) with (c :: (r ++ x)).
  rewrite replace_from_miss.
  - rewrite IH by done. done.
  - apply (diverge_app _ (c :: r) x Hd).
Qed.

(** *** The single pass *)

Lemma form_at_some forms s w :
  form_at forms s = Some w -> In w forms /\ startswith w s = true.
Proof. unfold form_at. intros E. now apply find_some in E. Qed.

Lemma form_at_none forms s :
  form_at forms s = None -> forall w, In w forms -> startswith w s = false.
Proof.
  unfold form_at. intros E w Hw.
  eapply find_none in E; [| exact Hw]. exact E.
Qed.

Lemma form_at_app forms more s :
  form_at (forms ++ more) s =
  match form_at forms s with
  | Some w => Some w
  | None => form_at more s
  end.
Proof.
  unfold form_at. induction forms as [| q forms IH]; simpl; [done |].
  now destruct (startswith q s).
Qed.

Lemma form_at_ext forms s s' :
  (forall w, In w forms -> startswith w s = startswith w s') ->
  form_at forms s = form_at forms s'.
Proof.
  unfold form_at. induction forms as [| q forms IH]; simpl; [done |].
  intros Hw. rewrite <- (Hw q) by auto.
  destruct (startswith q s); [done |]. apply IH. auto.
Qed.

Lemma wrap_from_skip forms k s :
  wrap_from forms k s = wrap_from forms 0 (skipn k s).
Proof.
  revert k. induction s as [| c r IH]; intros [| k]; try done.
  simpl. apply IH.
Qed.

Lemma wrap_from_hit forms w x :
  w <> [] -> form_at forms (w ++ x) = Some w ->
  wrap_from forms 0 (w ++ x) = span w ++ wrap_from forms 0 x.
Proof.
  destruct w as [| a w]; [done |]. intros _ E.
  change ((a :: w) ++ x) with (a :: (w ++ x)) in *.
  cbn [wrap_from]. rewrite E. f_equal.
  rewrite wrap_from_skip. simpl. rewrite Nat.sub_0_r.
  now rewrite skipn_app, skipn_all, Nat.sub_diag.
Qed.

Lemma wrap_from_miss forms c r :
  form_at forms (c :: r) = None ->
  wrap_from forms 0 (c :: r) = c :: wrap_from forms 0 r.
Proof. intros E. cbn [wrap_from]. now rewrite E. Qed.

Lemma form_at_block forms block x :
  block <> [] ->
  (forall q, In q forms -> diverge q block = true) ->
  form_at forms (block ++ x) = None.
Proof.
  intros _ Hq. unfold form_at.
  destruct (find _ forms) as [w |] eqn:E; [| done].
  apply find_some in E as [Hw E].
  now rewrite (diverge_app _ _ _ (Hq w Hw)) in E.
Qed.

(** The single pass copies a block that no form can start in. *)
Lemma wrap_from_block forms block x :
  (forall q, In q forms -> clear_of q block = true) ->
  wrap_from forms 0 (block ++ x) = block ++ wrap_from forms 0 x.
Proof.
  induction block as [| c r IH]; [done |]. intros Hq.
  change ((c :: r) ++ x) with (c :: (r ++ x)).
  rewrite wrap_from_miss.
  - rewrite IH; [done |]. intros q Hin. specialize (Hq q Hin).
    cbn [clear_of] in Hq. now apply andb_true_iff in Hq as [_ Hq].
  - apply (form_at_block forms (c :: r) x); [done |].
    intros q Hin. specialize (Hq q Hin).
    cbn [clear_of] in Hq. now apply andb_true_iff in Hq as [Hq _].
Qed.

Lemma span_head w : exists t, span w = LT :: t.
Proof. eexists. reflexivity. Qed.

(** What the single pass has written starts with a [<] wherever it
    differs from the text: a string without [<] that starts the output
    starts the text. *)
Lemma startswith_wrap_from forms p s :
  forallb (fun c => negb (char_eqb c LT)) p = true ->
  startswith p (wrap_from forms 0 s) = true -> startswith p s = true.
Proof.
  revert s. induction p as [| a p IH]; intros s; [done |].
  cbn [forallb]. intros [Ha Hp]%andb_true_iff.
  destruct s as [| c r]; [done |].
  cbn [wrap_from]. destruct (form_at forms (c :: r)) as [w |].
  - destruct (span_head w) as [t ->]. apply negb_true_iff in Ha.
    simpl. now rewrite Ha.
  - simpl. intros [-> Hr]%andb_true_iff. simpl. now apply IH.
Qed.

Lemma wrap_from_nil s : wrap_from [] 0 s = s.
Proof. induction s as [| c r IH]; [done |]. simpl. now rewrite IH. Qed.

Lemma compatible_spec done p :
  compatible done p = true ->
  p <> [] /\ forallb (fun c => negb (char_eqb c LT)) p = true
  /\ forall q, In q done ->
       clear_of p (span q) = true /\ clear_of q p = true.
Proof.
  unfold compatible.
  intros [[Hne Hlt]%andb_true_iff Hall]%andb_true_iff.
  split; [| split; [done |]].
  - intros ->. done.
  - intros q Hq. rewrite forallb_forall in Hall.
    apply Hall in Hq. now apply andb_true_iff in Hq.
Qed.

(** The pass for [p] over the output of the single pass for [forms] is
    the single pass for [forms] and [p].  By induction on a bound of the
    length of the text, in three cases: an earlier form starts the text,
    or [p] does, or neither. *)
Lemma pass_after_bounded forms p n :
  Forall (fun q => q <> []) forms -> compatible forms p = true ->
  forall s, length s <= n ->
    replace_from p (span p) 0 (wrap_from forms 0 s)
    = wrap_from (forms ++ [p]) 0 s.
Proof.
  intros Hforms (Hne & Hlt & Hcl)%compatible_spec.
  induction n as [| n IH]; intros s Hlen.
  { destruct s; [done | simpl in Hlen; lia]. }
  destruct s as [| c r]; [done |].
  destruct (form_at forms (c :: r)) as [w |] eqn:E.
  - destruct (form_at_some _ _ _ E) as [Hw [x Hx]%startswith_split].
    assert (w <> []) as Hwne by (rewrite List.Forall_forall in Hforms; auto).
    rewrite Hx in *. rewrite wrap_from_hit by done.
    rewrite replace_from_block by (now apply Hcl).
    rewrite wrap_from_hit; [| done | now rewrite form_at_app, E].
    f_equal. apply IH. rewrite length_app in Hlen.
    destruct w; [done | simpl in Hlen; lia].
  - destruct (startswith p (c :: r)) eqn:Ep.
    + destruct (startswith_split _ _ Ep) as [x Hx]. rewrite Hx in *.
      rewrite wrap_from_block by (intros q Hq; now apply Hcl).
      rewrite replace_from_hit by done.
      rewrite wrap_from_hit; [| done |].
      * f_equal. apply IH. rewrite length_app in Hlen.
        destruct p; [done | simpl in Hlen; lia].
      * rewrite form_at_app, E. unfold form_at. simpl.
        now rewrite startswith_app.
    + rewrite !wrap_from_miss; [| now rewrite form_at_app, E; unfold form_at; simpl; rewrite Ep | done].
      rewrite replace_from_miss.
      * f_equal. apply IH. simpl in Hlen. lia.
      * destruct (startswith p (c :: wrap_from forms 0 r)) eqn:Ew; [| done].
        rewrite <- (wrap_from_miss forms c r E) in Ew.
        apply startswith_wrap_from in Ew; [congruence | done].
Qed.

Lemma pass_after forms p s :
  Forall (fun q => q <> []) forms -> compatible forms p = true ->
  replace p (span p) (wrap_from forms 0 s) = wrap_from (forms ++ [p]) 0 s.
Proof.
  intros Hforms Hc. destruct (compatible_spec _ _ Hc) as (Hne & _).
  rewrite replace_nonempty by done.
  now apply (pass_after_bounded forms p (length s)).
Qed.

(** Any number of passes, one form after the other. *)
Lemma passes_are_one_pass todo :
  forall done s,
    Forall (fun q => q <> []) done -> all_compatible done todo = true ->
    fold_left (fun acc p => replace p (span p) acc) todo (wrap_from done 0 s)
    = wrap_from (done ++ todo) 0 s.
Proof.
  induction todo as [| p todo IH]; intros done s Hdone Hall.
  - simpl. now rewrite app_nil_r.
  - cbn [all_compatible] in Hall. apply andb_true_iff in Hall as [Hp Hall].
    cbn [fold_left]. rewrite pass_after by done.
    rewrite IH; [now rewrite <- app_assoc | | done].
    apply Forall_app. split; [done |].
    constructor; [| constructor]. now destruct (compatible_spec _ _ Hp).
Qed.

(** *** Text that no form reaches into *)

Lemma startswith_stop q r z y :
  existsb (char_eqb z) q = false ->
  startswith q (r ++ z :: y) = startswith q r.
Proof.
  revert r. induction q as [| b q IH]; intros r; [done |].
  cbn [existsb]. intros [Hb Hq]%orb_false_iff.
  destruct r as [| d r]; simpl.
  - unfold char_eqb in *. rewrite N.eqb_sym, Hb. done.
  - now rewrite IH.
Qed.

Lemma startswith_before q c r z y :
  existsb (char_eqb z) (tl q) = false ->
  startswith q ((c :: r) ++ z :: y) = startswith q (c :: r).
Proof.
  destruct q as [| a q]; [done |]. simpl. intros Hq.
  now rewrite startswith_stop.
Qed.

Lemma wrap_from_before_bounded forms z y n :
  Forall (fun q => q <> []) forms ->
  (forall q, In q forms -> existsb (char_eqb z) (tl q) = false) ->
  forall u, length u <= n ->
    wrap_from forms 0 (u ++ z :: y)
    = wrap_from forms 0 u ++ wrap_from forms 0 (z :: y).
Proof.
  intros Hforms Hz. induction n as [| n IH]; intros u Hlen.
  { destruct u; [done | simpl in Hlen; lia]. }
  destruct u as [| c r]; [done |].
  assert (form_at forms ((c :: r) ++ z :: y) = form_at forms (c :: r)) as Eat.
  { apply form_at_ext. intros w Hw. apply startswith_before. auto. }
  destruct (form_at forms (c :: r)) as [w |] eqn:E.
  - destruct (form_at_some _ _ _ E) as [Hw [x Hx]%startswith_split].
    assert (w <> []) as Hwne by (rewrite List.Forall_forall in Hforms; auto).
    rewrite Hx in *. rewrite <- app_assoc in Eat |- *.
    rewrite (wrap_from_hit forms w x), (wrap_from_hit forms w (x ++ z :: y))
      by done.
    rewrite <- app_assoc. f_equal.
    apply IH. rewrite length_app in Hlen.
    destruct w; [done | simpl in Hlen; lia].
  - change ((c :: r) ++ z :: y) with (c :: (r ++ z :: y)) in *.
    rewrite !wrap_from_miss by done. simpl. f_equal.
    apply IH. simpl in Hlen. lia.
Qed.

Lemma untouched_spec forms block :
  untouched forms block = true ->
  exists z b, block = z :: b
    /\ (forall q, In q forms -> clear_of q block = true)
    /\ (forall q, In q forms -> existsb (char_eqb z) (tl q) = false).
Proof.
  destruct block as [| z b]; [done |]. cbn [untouched].
  rewrite forallb_forall. intros Hall. exists z, b.
  split; [done |]. split; intros q Hq; specialize (Hall q Hq);
    apply andb_true_iff in Hall as [H1 H2]; [done |].
  now apply negb_true_iff in H2.
Qed.

(** The single pass goes around an untouched block. *)
Lemma wrap_from_untouched forms block u v :
  Forall (fun q => q <> []) forms -> untouched forms block = true ->
  wrap_from forms 0 (u ++ block ++ v)
  = wrap_from forms 0 u ++ block ++ wrap_from forms 0 v.
Proof.
  intros Hforms (z & b & -> & Hcl & Hz)%untouched_spec.
  change ((z :: b) ++ v) with (z :: (b ++ v)).
  rewrite (wrap_from_before_bounded forms z (b ++ v) (length u)) by done.
  f_equal. now apply (wrap_from_block forms (z :: b) v).
Qed.

(** *** The lists of the source *)

Lemma highlight_forms_nonempty : Forall (fun q : str => q <> []) highlight_forms.
Proof. repeat constructor; discriminate. Qed.

Lemma highlight_passes s :
  highlight s
  = fold_left (fun acc p => replace p (span p) acc) highlight_forms s.
Proof. reflexivity. Qed.

(** The loop of lines 156-164 wraps what one pass over the text wraps. *)
Lemma highlight_one_pass s :
  highlight s = wrap_occurrences highlight_forms s.
Proof.
  rewrite highlight_passes. unfold wrap_occurrences.
  rewrite <- (wrap_from_nil s) at 1.
  now rewrite passes_are_one_pass.
Qed.

(** An all-caps spelling of a listed word is left as it is, wherever it
    stands. *)
Lemma highlight_all_caps w u v :
  In w suspicious_words ->
  highlight (u ++ upper_word w ++ v)
  = highlight u ++ upper_word w ++ highlight v.
Proof.
  intros Hw. rewrite !highlight_one_pass. unfold wrap_occurrences.
  apply wrap_from_untouched; [apply highlight_forms_nonempty |].
  assert (forallb (fun w => untouched highlight_forms (upper_word w))
                  suspicious_words = true) as Hall by (vm_compute; reflexivity).
  rewrite forallb_forall in Hall. now apply Hall.
Qed.
End Replace.

(** ** The handlers, case by case *)

Section Handlers.
Context {L : StrLower} {C : Classifier}.

Lemma bind_ret {A B} (a : A) (k : A -> M B) st : bind (ret a) k st = k a st.
Proof. reflexivity. Qed.

Lemma bind_form_get {B} req key (k : str -> M B) st :
  bind (form_get req key) k st =
  match form req !! key with
  | Some v => k v st
  | None => (BadRequestKeyError key, st)
  end.
Proof. unfold bind, form_get. now destruct (form req !! key). Qed.

Lemma bind_session_get {B} key (k : Z -> M B) st :
  bind (session_get key) k st =
  match session st !! key with
  | Some v => k v st
  | None => (KeyError key, st)
  end.
Proof. unfold bind, session_get. now destruct (session st !! key). Qed.

Lemma bind_session_set {B} key v (k : unit -> M B) st :
  bind (session_set key v) k st =
  k tt {| session := <[key := v]> (session st); db := db st |}.
Proof. reflexivity. Qed.

Lemma bind_session_contains {B} key (k : bool -> M B) st :
  bind (session_contains key) k st =
  k (bool_decide (is_Some (session st !! key))) st.
Proof. reflexivity. Qed.

Lemma bind_insert_game_score {B} s t l (k : unit -> M B) st :
  bind (insert_game_score s t l) k st =
  if sqlite_int s && sqlite_int t then
    k tt {| session := session st;
            db := {| scans := scans (db st);
                     game_scores := game_scores (db st) ++
                       [{| gs_id := next_id (map gs_id (game_scores (db st)));
                           gs_score := s; gs_total := t; gs_level := l |}] |} |}
  else (OverflowError, st).
Proof.
  unfold bind, insert_game_score.
  now destruct (sqlite_int s && sqlite_int t).
Qed.

Lemma bind_insert_scan {B} e r c (k : unit -> M B) st :
  bind (insert_scan e r c) k st =
  k tt {| session := session st;
          db := {| scans := scans (db st) ++
                     [{| scan_id := next_id (map scan_id (scans (db st)));
                         scan_email := e; scan_result := r;
                         scan_confidence := c |}];
                   game_scores := game_scores (db st) |} |}.
Proof. reflexivity. Qed.

Lemma bind_assoc {A B D} (c : M A) (f : A -> M B) (g : B -> M D) st :
  bind (bind c f) g st = bind c (fun a => bind (f a) g) st.
Proof. unfold bind. destruct (c st) as [[a | key | key |] st']; reflexivity. Qed.

(** One step of a handler: the next primitive is run on the state. *)
Ltac mstep :=
  repeat first
    [ rewrite bind_assoc | rewrite bind_ret | rewrite bind_form_get
    | rewrite bind_session_get | rewrite bind_session_set
    | rewrite bind_session_contains | rewrite bind_insert_game_score
    | rewrite bind_insert_scan ];
  cbn [session db].

Ltac lookups := repeat (rewrite ?lookup_insert_eq, ?lookup_insert_ne by done).

(** A handler is run as far as the lookups of the context decide. *)
Ltac mrun :=
  repeat progress
    (mstep; lookups;
     try match goal with
         | H : _ !! _ = _ |- _ => rewrite H
         end).


(** *** [/] *)

Lemma home_get req st :
  req_method req = GET ->
  home req st =
    (Ok {| result := None; confidence := None;
           email_text := []; highlighted_text := [] |}, st).
Proof. intros Hm. unfold home. now rewrite Hm. Qed.

Lemma home_post req st (text : str) :
  req_method req = POST -> form req !! "email" = Some text ->
  home req st =
    (Ok {| result := Some (predict (clean_text text));
           confidence := Some (percent (predict_proba_max (clean_text text)));
           email_text := text;
           highlighted_text :=
             if str_eqb (predict (clean_text text)) (lit "FRAUD")
             then highlight text else text |},
     {| session := session st;
        db := {| scans := scans (db st) ++
                   [{| scan_id := next_id (map scan_id (scans (db st)));
                       scan_email := text;
                       scan_result := predict (clean_text text);
                       scan_confidence :=
                         percent (predict_proba_max (clean_text text)) |}];
                 game_scores := game_scores (db st) |} |}).
Proof. intros Hm He. unfold home. rewrite Hm. mstep. rewrite He. now mstep. Qed.

Lemma home_post_missing req st :
  req_method req = POST -> form req !! "email" = None ->
  home req st = (BadRequestKeyError "email", st).
Proof. intros Hm He. unfold home. rewrite Hm. mstep. now rewrite He. Qed.

(** *** [/game] *)

(** The first access: lines 203-205 start the session, and the handler
    goes on as on a started session. *)
Lemma game_first_access req draw st :
  session st !! "score" = None ->
  game req draw st =
  game req draw {| session := <["total" := 0%Z]> (<["score" := 0%Z]> (session st));
                   db := db st |}.
Proof.
  intros Hs. unfold game. mstep. rewrite Hs.
  rewrite bool_decide_false by (intros [? ?]; done).
  rewrite bool_decide_true by (lookups; eauto).
  now mstep.
Qed.

(** A GET on a started session: the row is stored and the page shown,
    or the INSERT of lines 234-237 raises and nothing has been written. *)
Lemma game_get req draw st sc t :
  req_method req = GET ->
  session st !! "score" = Some sc -> session st !! "total" = Some t ->
  game req draw st =
    if sqlite_int sc && sqlite_int t then
      (Ok {| question := random_choice draw QUIZ_QUESTIONS no_question;
             feedback := None; score := sc; total := t; level := level_of sc |},
       {| session := session st;
          db := {| scans := scans (db st);
                   game_scores := game_scores (db st) ++
                     [{| gs_id := next_id (map gs_id (game_scores (db st)));
                         gs_score := sc; gs_total := t;
                         gs_level := level_of sc |}] |} |})
    else (OverflowError, st).
Proof.
  intros Hm Hs Ht. unfold game. rewrite Hm. mstep.
  rewrite bool_decide_true by (rewrite Hs; eauto). mrun.
  destruct (sqlite_int sc && sqlite_int t); now mrun.
Qed.

Lemma game_post req draw st sc t (choice correct reason : str) :
  req_method req = POST ->
  form req !! "choice" = Some choice ->
  form req !! "correct" = Some correct ->
  form req !! "reason" = Some reason ->
  session st !! "score" = Some sc -> session st !! "total" = Some t ->
  let right := str_eqb choice correct in
  let sc' := if right then (sc + 1)%Z else sc in
  let session' := if right
                  then <["score" := (sc + 1)%Z]>
                         (<["total" := (t + 1)%Z]> (session st))
                  else <["total" := (t + 1)%Z]> (session st) in
  game req draw st =
    if sqlite_int sc' && sqlite_int (t + 1) then
      (Ok {| question := random_choice draw QUIZ_QUESTIONS no_question;
             feedback := Some ((if right then correct_prefix else wrong_prefix)
                               ++ reason);
             score := sc'; total := (t + 1)%Z; level := level_of sc' |},
       {| session := session';
          db := {| scans := scans (db st);
                   game_scores := game_scores (db st) ++
                     [{| gs_id := next_id (map gs_id (game_scores (db st)));
                         gs_score := sc'; gs_total := (t + 1)%Z;
                         gs_level := level_of sc' |}] |} |})
    else (OverflowError, {| session := session'; db := db st |}).
Proof.
  intros Hm Hch Hco Hre Hs Ht right sc' session'. subst right sc' session'.
  unfold game. rewrite Hm. mstep.
  rewrite bool_decide_true by (rewrite Hs; eauto). mrun.
  destruct (str_eqb choice correct); mrun;
    match goal with
    | |- context [sqlite_int ?a && sqlite_int ?b] =>
        destruct (sqlite_int a && sqlite_int b)
    end; now mrun.
Qed.

(** The session after a POST with its three fields: lines 215-218 have
    written it before the INSERT, whether the INSERT raises or not. *)
Lemma game_post_session req draw st sc t (choice correct reason : str) :
  req_method req = POST ->
  form req !! "choice" = Some choice ->
  form req !! "correct" = Some correct ->
  form req !! "reason" = Some reason ->
  session st !! "score" = Some sc -> session st !! "total" = Some t ->
  session (snd (game req draw st)) =
    if str_eqb choice correct
    then <["score" := (sc + 1)%Z]> (<["total" := (t + 1)%Z]> (session st))
    else <["total" := (t + 1)%Z]> (session st).
Proof.
  intros Hm Hch Hco Hre Hs Ht.
  rewrite (game_post req draw st sc t choice correct reason) by done.
  cbn zeta.
  match goal with
  | |- context [sqlite_int ?a && sqlite_int ?b] =>
      destruct (sqlite_int a && sqlite_int b)
  end; reflexivity.
Qed.

(** A POST that lacks one of the three fields raises at line 211, 212 or
    213, before the session is written. *)
Lemma game_post_missing req draw st :
  req_method req = POST -> is_Some (session st !! "score") ->
  form req !! "choice" = None \/ form req !! "correct" = None
    \/ form req !! "reason" = None ->
  exists key, game req draw st = (BadRequestKeyError key, st).
Proof.
  intros Hm Hs Hf. unfold game. rewrite Hm. mstep.
  rewrite bool_decide_true by done. mstep.
  destruct (form req !! "choice") as [choice |]; [| now eexists]. mstep.
  destruct (form req !! "correct") as [correct |]; [| now eexists]. mstep.
  destruct (form req !! "reason") as [reason |]; [| now eexists].
  destruct Hf as [Hf | [Hf | Hf]]; done.
Qed.

(** A session with a score and without a total: line 215 or line 236
    raises, if no field is missing before, and nothing is written. *)
Lemma game_no_total req draw st :
  is_Some (session st !! "score") -> session st !! "total" = None ->
  exists o, game req draw st = (o, st) /\ forall page, o <> Ok page.
Proof.
  intros Hs Ht. pose proof Hs as [sc Hsc]. unfold game. mstep.
  rewrite bool_decide_true by done. mstep.
  destruct (req_method req).
  - mrun. now eexists.
  - mstep.
    destruct (form req !! "choice") as [choice |]; [| now eexists]. mstep.
    destruct (form req !! "correct") as [correct |]; [| now eexists]. mstep.
    destruct (form req !! "reason") as [reason |]; [| now eexists].
    mrun. now eexists.
Qed.
End Handlers.

(** ** Runs of the application *)

Section Runs.
Context {L : StrLower} {C : Classifier}.

Lemma run_cons st r rs : run st (r :: rs) = run (step st r) rs.
Proof. reflexivity. Qed.

(** *** What [/game] does to the state *)

Lemma game_effect_started req draw st sc t :
  session st !! "score" = Some sc -> session st !! "total" = Some t ->
  let st' := snd (game req draw st) in
  scans (db st') = scans (db st)
  /\ (exists sc' t', session st' !! "score" = Some sc'
        /\ session st' !! "total" = Some t'
        /\ ((0 <= sc <= t)%Z -> (0 <= sc' <= t')%Z))
  /\ exists new, game_scores (db st') = game_scores (db st) ++ new
       /\ ((0 <= sc <= t)%Z -> Forall row_ok new)
       /\ Forall level_ok new.
Proof.
  intros Hs Ht. destruct (req_method req) eqn:Hm.
  - rewrite (game_get req draw st sc t) by done.
    destruct (sqlite_int sc && sqlite_int t); cbn.
    + repeat split; [by exists sc, t |]. eexists. split; [done |].
      split; [intros Hle |]; repeat constructor; cbn; lia.
    + repeat split; [by exists sc, t |]. exists []. rewrite app_nil_r.
      repeat split; constructor.
  - destruct (form req !! "choice") as [choice |] eqn:Hch;
      [destruct (form req !! "correct") as [correct |] eqn:Hco;
       [destruct (form req !! "reason") as [reason |] eqn:Hre |] |].
    2-4: destruct (game_post_missing req draw st) as [key ->]; eauto; cbn;
      (repeat split; [by exists sc, t |]); exists []; rewrite app_nil_r;
      repeat split; constructor.
    rewrite (game_post req draw st sc t choice correct reason) by done.
    cbn zeta. destruct (str_eqb choice correct).
    + destruct (sqlite_int (sc + 1) && sqlite_int (t + 1)); cbn;
        (repeat split;
         [ exists (sc + 1)%Z, (t + 1)%Z;
           rewrite lookup_insert_eq, lookup_insert_ne, lookup_insert_eq by done;
           repeat split; lia |]).
      * eexists. split; [done |].
        split; [intros Hle |]; repeat constructor; cbn; lia.
      * exists []. rewrite app_nil_r. repeat split; constructor.
    + destruct (sqlite_int sc && sqlite_int (t + 1)); cbn;
        (repeat split;
         [ exists sc, (t + 1)%Z;
           rewrite lookup_insert_ne, lookup_insert_eq by done;
           repeat split; try done; lia |]).
      * eexists. split; [done |].
        split; [intros Hle |]; repeat constructor; cbn; lia.
      * exists []. rewrite app_nil_r. repeat split; constructor.
Qed.

Lemma game_effect req draw st :
  let st' := snd (game req draw st) in
  scans (db st') = scans (db st)
  /\ (session_ok (session st) -> session_ok (session st'))
  /\ exists new, game_scores (db st') = game_scores (db st) ++ new
       /\ (session_ok (session st) -> Forall row_ok new)
       /\ Forall level_ok new.
Proof.
  destruct (session st !! "score") as [sc |] eqn:Hs.
  - destruct (session st !! "total") as [t |] eqn:Ht.
    + destruct (game_effect_started req draw st sc t Hs Ht)
        as (Hscans & (sc' & t' & Hs' & Ht' & Hle') & new & Hnew & Hrow & Hlvl).
      cbn zeta. split; [done |]. split.
      * intros [Hn | (sc0 & t0 & Hs0 & Ht0 & Hle0)]; [congruence |].
        right. exists sc', t'. repeat split; try done;
          apply Hle'; split; congruence + (simplify_eq; lia).
      * exists new. repeat split; try done.
        intros [Hn | (sc0 & t0 & Hs0 & Ht0 & Hle0)]; [congruence |].
        apply Hrow. simplify_eq. lia.
    + destruct (game_no_total req draw st) as (o & -> & _); [eauto | done |].
      cbn. repeat split; [done |]. exists []. rewrite app_nil_r.
      repeat split; constructor.
  - rewrite game_first_access by done.
    set (st1 := {| session := _; db := db st |}).
    destruct (game_effect_started req draw st1 0%Z 0%Z)
      as (Hscans & (sc' & t' & Hs' & Ht' & Hle') & new & Hnew & Hrow & Hlvl).
    { subst st1. cbn. now rewrite lookup_insert_ne, lookup_insert_eq. }
    { subst st1. cbn. now rewrite lookup_insert_eq. }
    cbn zeta. split; [done |]. split.
    + intros _. right. exists sc', t'. repeat split; try done; apply Hle'; lia.
    + exists new. repeat split; try done. intros _. apply Hrow. lia.
Qed.

Lemma home_effect req st :
  session (snd (home req st)) = session st
  /\ game_scores (db (snd (home req st))) = game_scores (db st).
Proof.
  destruct (req_method req) eqn:Hm.
  - now rewrite home_get.
  - destruct (form req !! "email") as [text |] eqn:He.
    + now rewrite (home_post req st text).
    + now rewrite home_post_missing.
Qed.

(** Every request keeps the invariant of the session, and the rows it
    adds to [game_scores] are consistent. *)
Lemma step_effect st r :
  (session_ok (session st) -> session_ok (session (step st r)))
  /\ exists new, game_scores (db (step st r)) = game_scores (db st) ++ new
       /\ (session_ok (session st) -> Forall row_ok new)
       /\ Forall level_ok new.
Proof.
  destruct r as [req | req draw | | |]; cbn [step].
  - destruct (home_effect req st) as [-> ->]. split; [done |].
    exists []. rewrite app_nil_r. repeat split; constructor.
  - destruct (game_effect req draw st) as (_ & Hs & Hnew). now split.
  - cbn. split; [intros _; now left |].
    exists []. rewrite app_nil_r. repeat split; constructor.
  - cbn. split; [done |].
    exists []. rewrite app_nil_r. repeat split; constructor.
  - cbn. split; [done |].
    exists []. rewrite app_nil_r. repeat split; constructor.
Qed.

Lemma run_effect rs :
  forall st,
    (session_ok (session st) -> session_ok (session (run st rs)))
    /\ exists new, game_scores (db (run st rs)) = game_scores (db st) ++ new
         /\ (session_ok (session st) -> Forall row_ok new)
         /\ Forall level_ok new.
Proof.
  induction rs as [| r rs IH]; intros st.
  - cbn. split; [done |]. exists []. rewrite app_nil_r.
    repeat split; constructor.
  - rewrite run_cons.
    destruct (step_effect st r) as (Hs1 & new1 & Hn1 & Hr1 & Hl1).
    destruct (IH (step st r)) as (Hs2 & new2 & Hn2 & Hr2 & Hl2).
    split; [auto |]. exists (new1 ++ new2).
    rewrite Hn2, Hn1, <- app_assoc. repeat split.
    + intros Hok. apply Forall_app. auto.
    + apply Forall_app. auto.
Qed.

(** Requests to [/game] keep a started session started. *)
Lemma run_game_started reqs :
  forall st,
    session_started (session st) ->
    session_started (session (run st (map game_request reqs)))
    /\ exists new,
         game_scores (db (run st (map game_request reqs)))
         = game_scores (db st) ++ new
         /\ Forall row_ok new.
Proof.
  induction reqs as [| [req draw] reqs IH]; intros st Hst.
  - cbn. split; [done |]. exists []. now rewrite app_nil_r.
  - cbn [map]. rewrite run_cons. cbn [game_request step fst snd].
    destruct Hst as (sc & t & Hs & Ht & Hle).
    destruct (game_effect_started req draw st sc t Hs Ht)
      as (_ & (sc' & t' & Hs' & Ht' & Hle') & new1 & Hn1 & Hr1 & _).
    destruct (IH (snd (game req draw st))) as (Hst2 & new2 & Hn2 & Hr2).
    { exists sc', t'. auto. }
    split; [done |]. exists (new1 ++ new2).
    rewrite Hn2, Hn1, <- app_assoc. split; [done |].
    apply Forall_app. auto.
Qed.

(** What [/game] shows is what it stores. *)
Lemma game_shown_started req draw st sc t :
  session st !! "score" = Some sc -> session st !! "total" = Some t ->
  match game req draw st with
  | (Ok page, st') =>
      level page = level_of (score page)
      /\ exists row, game_scores (db st') = game_scores (db st) ++ [row]
           /\ gs_score row = score page /\ gs_total row = total page
           /\ gs_level row = level_of (score page)
  | _ => True
  end.
Proof.
  intros Hs Ht. destruct (req_method req) eqn:Hm.
  - rewrite (game_get req draw st sc t) by done.
    destruct (sqlite_int sc && sqlite_int t); cbn; eauto 6.
  - destruct (form req !! "choice") as [choice |] eqn:Hch;
      [destruct (form req !! "correct") as [correct |] eqn:Hco;
       [destruct (form req !! "reason") as [reason |] eqn:Hre |] |].
    2-4: destruct (game_post_missing req draw st) as [key ->]; eauto.
    rewrite (game_post req draw st sc t choice correct reason) by done.
    cbn zeta.
    match goal with
    | |- context [sqlite_int ?a && sqlite_int ?b] =>
        destruct (sqlite_int a && sqlite_int b)
    end; cbn; eauto 6.
Qed.

Lemma game_shown req draw st :
  match game req draw st with
  | (Ok page, st') =>
      level page = level_of (score page)
      /\ exists row, game_scores (db st') = game_scores (db st) ++ [row]
           /\ gs_score row = score page /\ gs_total row = total page
           /\ gs_level row = level_of (score page)
  | _ => True
  end.
Proof.
  destruct (session st !! "score") as [sc |] eqn:Hs.
  - destruct (session st !! "total") as [t |] eqn:Ht.
    + now apply (game_shown_started req draw st sc t).
    + destruct (game_no_total req draw st) as (o & -> & Ho); [eauto | done |].
      destruct o; [now destruct (Ho a) | done | done | done].
  - rewrite game_first_access by done.
    set (st1 := {| session := _; db := db st |}).
    assert (session st1 !! "score" = Some 0%Z) as Hs1
      by (subst st1; cbn; now rewrite lookup_insert_ne, lookup_insert_eq).
    assert (session st1 !! "total" = Some 0%Z) as Ht1
      by (subst st1; cbn; now rewrite lookup_insert_eq).
    pose proof (game_shown_started req draw st1 0%Z 0%Z Hs1 Ht1) as Hshown.
    now destruct (game req draw st1) as [[page | key | key |] st'].
Qed.

(** *** The table [scans] *)

Lemma next_id_above ids x : In x ids -> (x < next_id ids)%Z.
Proof.
  unfold next_id. induction ids as [| y ids IH]; [done |].
  cbn [fold_right In]. intros [-> | Hx]; [lia |].
  specialize (IH Hx). lia.
Qed.

Lemma ascending_snoc ids x :
  StronglySorted Z.lt ids -> (forall y, In y ids -> (y < x)%Z) ->
  StronglySorted Z.lt (ids ++ [x]).
Proof.
  induction 1 as [| y ids Hs IH Hy]; intros Hx; cbn.
  - repeat constructor.
  - constructor.
    + apply IH. intros z Hz. apply Hx. now right.
    + apply Forall_app. split; [done |].
      constructor; [| constructor]. apply Hx. now left.
Qed.

Lemma insert_desc_last {A} (key : A -> Z) x rows :
  (forall y, In y rows -> (key x < key y)%Z) ->
  insert_desc key x rows = rows ++ [x].
Proof.
  induction rows as [| y rows IH]; intros Hx; [done |]. cbn.
  assert ((key y <? key x)%Z = false) as ->.
  { apply Z.ltb_ge. specialize (Hx y (or_introl eq_refl)). lia. }
  rewrite IH; [done |]. intros z Hz. apply Hx. now right.
Qed.

(** On ids in insertion order, [ORDER BY id DESC] is the reverse. *)
Lemma order_by_desc_ascending {A} (key : A -> Z) rows :
  StronglySorted Z.lt (map key rows) -> order_by_desc key rows = rev rows.
Proof.
  induction rows as [| x rows IH]; [done |].
  cbn [map]. intros Hs. apply StronglySorted_inv in Hs as [Hs Hx].
  cbn. fold (order_by_desc key rows). rewrite IH by done.
  apply insert_desc_last. intros y Hy%in_rev.
  rewrite List.Forall_forall in Hx. apply Hx. now apply in_map.
Qed.

(** A request adds to [scans] the text it submits, and nothing else. *)
Lemma step_scans st r :
  scans (db (step st r)) =
  scans (db st) ++
  match submitted r with
  | Some text =>
      [{| scan_id := next_id (map scan_id (scans (db st)));
          scan_email := text; scan_result := predict (clean_text text);
          scan_confidence := percent (predict_proba_max (clean_text text)) |}]
  | None => []
  end.
Proof.
  destruct r as [req | req draw | | |]; cbn [step submitted];
    rewrite ?app_nil_r; try done.
  - destruct (req_method req) eqn:Hm.
    + now rewrite home_get, app_nil_r.
    + destruct (form req !! "email") as [text |] eqn:He.
      * now rewrite (home_post req st text).
      * now rewrite home_post_missing, app_nil_r.
  - now destruct (game_effect req draw st) as (-> & _).
Qed.

Lemma submissions_cons r rs :
  submissions (r :: rs) =
  match submitted r with
  | Some text => text :: submissions rs
  | None => submissions rs
  end.
Proof. reflexivity. Qed.

Lemma run_scans rs :
  forall st,
    StronglySorted Z.lt (map scan_id (scans (db st))) ->
    StronglySorted Z.lt (map scan_id (scans (db (run st rs))))
    /\ map scan_fields (scans (db (run st rs)))
       = map scan_fields (scans (db st)) ++ map scan_of (submissions rs).
Proof.
  induction rs as [| r rs IH]; intros st Hs.
  - cbn. now rewrite app_nil_r.
  - rewrite run_cons. destruct (IH (step st r)) as [Hs' Hf].
    + rewrite step_scans. destruct (submitted r); [| now rewrite app_nil_r].
      rewrite map_app. apply ascending_snoc; [done |].
      intros y Hy. now apply next_id_above.
    + split; [done |]. rewrite Hf, step_scans, map_app, <- app_assoc.
      f_equal. rewrite submissions_cons. now destruct (submitted r).
Qed.
End Runs.

(** * The claims of the specification *)

Section Claims.
Context {L : StrLower} {C : Classifier}.

Lemma clean_text_nil : clean_text [] = [].
Proof. unfold clean_text. now rewrite lower_ascii. Qed.

Lemma highlight_nil : highlight [] = [].
Proof. reflexivity. Qed.

(** The input of the counterexample to C1, under any case table. *)
Lemma clean_text_joins_url :
  clean_text (lit "ht1tpabc") = lit "httpabc"
  /\ clean_text (lit "httpabc") = [].
Proof. unfold clean_text. now rewrite !lower_ascii. Qed.

(** C2, as amended.  A POST to [/] whose field [email] is the empty
    string is scanned like any other text: the empty string is cleaned
    (to itself), classified and stored, and the page is rendered.  A POST
    without the field raises the bad-request error of [request.form] and
    leaves the state as it was. *)
Theorem scan_post_empty_or_missing req st :
  req_method req = POST ->
  (form req !! "email" = Some [] ->
     clean_text [] = []
     /\ home req st =
        (Ok {| result := Some (predict []);
               confidence := Some (percent (predict_proba_max []));
               email_text := []; highlighted_text := [] |},
         {| session := session st;
            db := {| scans := scans (db st) ++
                       [{| scan_id := next_id (map scan_id (scans (db st)));
                           scan_email := []; scan_result := predict [];
                           scan_confidence := percent (predict_proba_max []) |}];
                     game_scores := game_scores (db st) |} |}))
  /\ (form req !! "email" = None ->
        home req st = (BadRequestKeyError "email", st)).
Proof.
  intros Hm. split; intros He.
  - split; [apply clean_text_nil |].
    rewrite (home_post req st []) by done. rewrite clean_text_nil.
    rewrite highlight_nil. now destruct (str_eqb _ _).
  - now apply home_post_missing.
Qed.

(** C3.  On a POST to [/] the page shows the submitted text itself when
    the label is not FRAUD.  When it is, the page shows the submitted text
    (not the cleaned one) with every occurrence of a listed word, in
    lowercase or capitalized, wrapped in the marker, and nothing else
    changed.  An all-caps spelling of a listed word, [VERIFY] among them,
    is part of no occurrence: it is copied, and the text around it is
    treated as if it stood alone. *)
Theorem highlighting_of_scan_post req st (text : str) :
  req_method req = POST -> form req !! "email" = Some text ->
  exists page st',
    home req st = (Ok page, st')
    /\ email_text page = text
    /\ (predict (clean_text text) = lit "FRAUD" ->
          highlighted_text page = wrap_occurrences highlight_forms text)
    /\ (predict (clean_text text) <> lit "FRAUD" ->
          highlighted_text page = text)
    /\ (forall w u v, In w suspicious_words ->
          wrap_occurrences highlight_forms (u ++ upper_word w ++ v)
          = wrap_occurrences highlight_forms u ++ upper_word w
            ++ wrap_occurrences highlight_forms v)
    /\ wrap_occurrences highlight_forms (lit "VERIFY") = lit "VERIFY".
Proof.
  intros Hm He. rewrite (home_post req st text) by done.
  do 2 eexists. split; [done |]. cbn [email_text highlighted_text].
  split; [done |]. split; [| split; [| split]].
  - intros ->. now rewrite highlight_one_pass.
  - intros Hne. destruct (str_eqb _ _) eqn:E; [| done].
    now apply str_eqb_eq in E.
  - intros w u v Hw. rewrite <- !highlight_one_pass.
    now apply highlight_all_caps.
  - rewrite <- highlight_one_pass. reflexivity.
Qed.


(** C5.  From the session [{score: 0, total: 0}], after any sequence of
    requests to [/game] the session holds a score and a total with
    [0 <= score <= total], and so does every row that the sequence has
    added to [game_scores].  A POST with its three fields adds one to the
    total, and one to the score exactly when the choice equals the correct
    answer. *)
Theorem game_score_invariant :
  (forall (reqs : list (request * nat)) db0,
      let st := run {| session := started_session; db := db0 |}
                    (map game_request reqs) in
      session_started (session st)
      /\ exists new, game_scores (db st) = game_scores db0 ++ new
           /\ Forall row_ok new)
  /\ (forall req draw st sc t (choice correct reason : str),
        req_method req = POST ->
        form req !! "choice" = Some choice ->
        form req !! "correct" = Some correct ->
        form req !! "reason" = Some reason ->
        session st !! "score" = Some sc -> session st !! "total" = Some t ->
        let s' := session (snd (game req draw st)) in
        s' !! "total" = Some (t + 1)%Z
        /\ (choice = correct -> s' !! "score" = Some (sc + 1)%Z)
        /\ (choice <> correct -> s' !! "score" = Some sc)).
Proof.
  split.
  - intros reqs db0.
    apply (run_game_started reqs {| session := started_session; db := db0 |}).
    exists 0%Z, 0%Z. cbn. unfold started_session.
    rewrite lookup_insert_ne, !lookup_insert_eq by done. repeat split; lia.
  - intros req draw st sc t choice correct reason Hm Hch Hco Hre Hs Ht.
    rewrite (game_post_session req draw st sc t choice correct reason) by done.
    cbn zeta. destruct (str_eqb choice correct) eqn:E.
    + apply str_eqb_eq in E.
      rewrite lookup_insert_ne, !lookup_insert_eq by done. now repeat split.
    + assert (choice <> correct) by (intros Heq%str_eqb_eq; congruence).
      rewrite lookup_insert_eq, lookup_insert_ne by done. now repeat split.
Qed.

(** C6, as amended.  A POST to [/] that carries the field [email] adds
    exactly one row to [scans], with the submitted text as it came, the
    label and the percentage, and leaves [game_scores] alone; a POST
    without the field adds none.  After any run from an empty [scans]
    table the table holds one row for each text submitted, and [/history]
    lists them last submitted first. *)
Theorem scan_rows :
  (forall req st (text : str),
      req_method req = POST -> form req !! "email" = Some text ->
      let st' := snd (home req st) in
      scans (db st') =
        scans (db st) ++
        [{| scan_id := next_id (map scan_id (scans (db st)));
            scan_email := text; scan_result := predict (clean_text text);
            scan_confidence := percent (predict_proba_max (clean_text text)) |}]
      /\ game_scores (db st') = game_scores (db st))
  /\ (forall req st,
        req_method req = POST -> form req !! "email" = None ->
        snd (home req st) = st)
  /\ (forall st0 rs,
        scans (db st0) = [] ->
        let st := run st0 rs in
        length (scans (db st)) = length (submissions rs)
        /\ map scan_fields (scans (db st)) = map scan_of (submissions rs)
        /\ history st = (Ok (rev (map scan_of (submissions rs))), st)).
Proof.
  split; [| split].
  - intros req st text Hm He. now rewrite (home_post req st text).
  - intros req st Hm He. now rewrite home_post_missing.
  - intros st0 rs H0. destruct (run_scans rs st0) as [Hs Hf].
    { rewrite H0. constructor. }
    rewrite H0 in Hf. cbn in Hf. cbn zeta. split; [| split].
    + rewrite <- (length_map scan_fields), Hf. apply length_map.
    + done.
    + unfold history, select_scans.
      rewrite order_by_desc_ascending by done.
      now rewrite map_rev, Hf.
Qed.

(** C8, as amended.  A GET of [/game] on a session that holds a score
    and a total never writes the session.  When the score and the total
    are [int]s that [sqlite3] binds (from [-2^63] to [2^63 - 1]), the page
    is rendered with them and one row is added to [game_scores]: the
    score, the total and the level of the score.  When one of them is not,
    the INSERT raises [OverflowError]: no row is added and the whole state
    is as it was. *)
Theorem game_get_snapshot req draw st sc t :
  req_method req = GET ->
  session st !! "score" = Some sc -> session st !! "total" = Some t ->
  (sqlite_int sc = true -> sqlite_int t = true ->
   exists page st',
     game req draw st = (Ok page, st')
     /\ session st' = session st
     /\ scans (db st') = scans (db st)
     /\ game_scores (db st') =
          game_scores (db st) ++
          [{| gs_id := next_id (map gs_id (game_scores (db st)));
              gs_score := sc; gs_total := t; gs_level := level_of sc |}]
     /\ score page = sc /\ total page = t /\ level page = level_of sc
     /\ feedback page = None)
  /\ (sqlite_int sc = false \/ sqlite_int t = false ->
      game req draw st = (OverflowError, st)).
Proof.
  intros Hm Hs Ht. rewrite (game_get req draw st sc t) by done. split.
  - intros -> ->. do 2 eexists. split; [done |]. now cbn.
  - intros [-> | ->]; [done |]. now rewrite andb_false_r.
Qed.

(** C9.  A GET of [/] leaves the session and both tables as they are
    and renders no result, no confidence and two empty texts. *)
Theorem home_get_frame req st :
  req_method req = GET ->
  home req st =
    (Ok {| result := None; confidence := None;
           email_text := []; highlighted_text := [] |}, st).
Proof. apply home_get. Qed.

(** C10.  Whatever the requests and whatever the state they start
    from, every row that a run adds to [game_scores] carries the level of
    its own score; from the empty database every row of the table does. *)
Theorem game_rows_level :
  (forall st0 rs,
      exists new, game_scores (db (run st0 rs)) = game_scores (db st0) ++ new
        /\ Forall level_ok new)
  /\ (forall rs, Forall level_ok (game_scores (db (run initial_state rs)))).
Proof.
  split.
  - intros st0 rs. destruct (run_effect rs st0) as (_ & new & Hn & _ & Hl).
    eauto.
  - intros rs.
    destruct (run_effect rs initial_state) as (_ & new & Hn & _ & Hl).
    now rewrite Hn.
Qed.
End Claims.

(** * The claims at concrete inputs *)

(** The example of the specification. *)
Example clean_text_example :
  @clean_text ascii_only (lit "HELLO http://x.com World!!") = lit "hello world".
Proof. reflexivity. Qed.

(** C1 fails at ["ht1tpabc"]: step 3 removes the digit and leaves
    ["httpabc"], which step 2 of the second call removes as a URL. *)
Lemma clean_text_not_idempotent :
  @clean_text ascii_only (@clean_text ascii_only (lit "ht1tpabc"))
  <> @clean_text ascii_only (lit "ht1tpabc").
Proof. vm_compute. discriminate. Qed.

(** C2 fails at a POST without fields: the handler raises and stores
    nothing, where a POST of the empty string is answered and stored. *)
Lemma missing_email_not_scanned :
  @home ascii_only always_safe post_nothing initial_state
  = (BadRequestKeyError "email", initial_state)
  /\ @home ascii_only always_safe post_nothing initial_state
     <> @home ascii_only always_safe (post_email []) initial_state.
Proof.
  split; [reflexivity |].
  rewrite (home_post (post_email []) initial_state []) by reflexivity.
  rewrite home_post_missing by reflexivity. discriminate.
Qed.

Lemma scan_post_empty_or_missing_witness :
  req_method (post_email []) = POST
  /\ form (post_email []) !! "email" = Some []
  /\ req_method post_nothing = POST
  /\ form post_nothing !! "email" = None
  /\ @clean_text ascii_only [] = []
  /\ @home ascii_only always_safe (post_email []) initial_state =
     (Ok ({| result := Some (lit "SAFE");
             confidence := Some (7500%Z : @float always_safe);
             email_text := []; highlighted_text := [] |}
          : @scan_page always_safe),
      ({| session := ∅;
          db := {| scans := [{| scan_id := 1; scan_email := [];
                                scan_result := lit "SAFE";
                                scan_confidence := (7500%Z : @float always_safe) |}];
                   game_scores := [] |} |} : @state always_safe))
  /\ @home ascii_only always_safe post_nothing initial_state
     = (BadRequestKeyError "email", initial_state).
Proof.
  do 4 (split; [reflexivity |]).
  split; [| split].
  - apply (@scan_post_empty_or_missing ascii_only always_safe
             (post_email []) initial_state); reflexivity.
  - apply (@scan_post_empty_or_missing ascii_only always_safe
             (post_email []) initial_state); reflexivity.
  - apply (@scan_post_empty_or_missing ascii_only always_safe
             post_nothing initial_state); reflexivity.
Defined.

Lemma highlighting_of_scan_post_witness :
  req_method (post_email (lit "Verify VERIFY bank")) = POST
  /\ form (post_email (lit "Verify VERIFY bank")) !! "email"
     = Some (lit "Verify VERIFY bank")
  /\ @predict always_fraud (@clean_text ascii_only (lit "Verify VERIFY bank"))
     = lit "FRAUD"
  /\ exists (page : @scan_page always_fraud) st',
       @home ascii_only always_fraud
         (post_email (lit "Verify VERIFY bank")) initial_state = (Ok page, st')
       /\ email_text page = lit "Verify VERIFY bank"
       /\ highlighted_text page
          = span (lit "Verify") ++ lit " VERIFY " ++ span (lit "bank").
Proof.
  do 3 (split; [reflexivity |]).
  destruct (@highlighting_of_scan_post ascii_only always_fraud
              (post_email (lit "Verify VERIFY bank")) initial_state
              (lit "Verify VERIFY bank") eq_refl eq_refl)
    as (page & st' & Hhome & Hemail & Hfraud & _).
  exists page, st'. split; [exact Hhome |]. split; [exact Hemail |].
  rewrite (Hfraud eq_refl). reflexivity.
Defined.

(** The example of the specification: both capitalized words are wrapped,
    the all-caps one is not. *)
Example highlight_example :
  highlight (lit "VERIFY! Verify your Account")
  = lit "VERIFY! " ++ span (lit "Verify") ++ lit " your " ++ span (lit "Account").
Proof. reflexivity. Qed.

Lemma game_score_invariant_witness :
  req_method right_answer = POST
  /\ form right_answer !! "choice" = Some (lit "FRAUD")
  /\ form right_answer !! "correct" = Some (lit "FRAUD")
  /\ form right_answer !! "reason" = Some (lit "Creates urgency.")
  /\ session (@started_state always_safe) !! "score" = Some 0%Z
  /\ session (@started_state always_safe) !! "total" = Some 0%Z
  /\ lit "FRAUD" = lit "FRAUD"
  /\ session (snd (@game always_safe right_answer 0 started_state)) !! "total"
     = Some 1%Z
  /\ session (snd (@game always_safe right_answer 0 started_state)) !! "score"
     = Some 1%Z.
Proof.
  do 7 (split; [reflexivity |]).
  split;
    apply (proj2 (@game_score_invariant ascii_only always_safe)
             right_answer 0%nat started_state 0%Z 0%Z (lit "FRAUD") (lit "FRAUD")
             (lit "Creates urgency.")); reflexivity.
Defined.

(** C6 fails at a POST without fields: no row is added. *)
Lemma post_without_email_adds_no_row :
  length (scans (db (snd (@home ascii_only always_safe post_nothing
                            initial_state))))
  <> length (scans (db (@initial_state always_safe))) + 1.
Proof. rewrite home_post_missing by reflexivity. cbn. lia. Qed.

Lemma scan_rows_witness :
  req_method short_message = POST
  /\ form short_message !! "email" = Some (lit "Hi Bob")
  /\ req_method post_nothing = POST
  /\ form post_nothing !! "email" = None
  /\ scans (db (@initial_state always_safe)) = []
  /\ scans (db (snd (@home ascii_only always_safe short_message initial_state)))
     = [({| scan_id := 1; scan_email := lit "Hi Bob";
            scan_result := lit "SAFE";
            scan_confidence := (7500%Z : @float always_safe) |}
         : @ScanRecord always_safe)]
  /\ snd (@home ascii_only always_safe post_nothing initial_state)
     = initial_state
  /\ @history always_safe
       (@run ascii_only always_safe initial_state
          [submit (lit "Hi Bob"); Game get_request 1; Home post_nothing;
           submit (lit "URGENT: verify http://x.y")])
     = (Ok [(lit "URGENT: verify http://x.y", lit "SAFE",
             (7500%Z : @float always_safe));
            (lit "Hi Bob", lit "SAFE", (7500%Z : @float always_safe))],
        @run ascii_only always_safe initial_state
          [submit (lit "Hi Bob"); Game get_request 1; Home post_nothing;
           submit (lit "URGENT: verify http://x.y")]).
Proof.
  do 5 (split; [reflexivity |]).
  split; [| split].
  - apply (proj1 (@scan_rows ascii_only always_safe) short_message initial_state
             (lit "Hi Bob")); reflexivity.
  - apply (proj1 (proj2 (@scan_rows ascii_only always_safe))
             post_nothing initial_state); reflexivity.
  - apply (proj2 (proj2 (@scan_rows ascii_only always_safe))
             initial_state
             [submit (lit "Hi Bob"); Game get_request 1; Home post_nothing;
              submit (lit "URGENT: verify http://x.y")] eq_refl).
Defined.

(** C8 fails at a session whose score and total are [2^63]: the INSERT
    raises, the page is not rendered and no row is added. *)
Lemma game_get_overflow_adds_no_row :
  req_method get_request = GET
  /\ session (@huge_state always_safe) !! "score" = Some (2 ^ 63)%Z
  /\ session (@huge_state always_safe) !! "total" = Some (2 ^ 63)%Z
  /\ @game always_safe get_request 0 huge_state = (OverflowError, huge_state)
  /\ length (game_scores
               (db (snd (@game always_safe get_request 0 huge_state))))
     <> length (game_scores (db (@huge_state always_safe))) + 1.
Proof.
  assert (@game always_safe get_request 0 huge_state
          = (OverflowError, huge_state)) as Hgame.
  { now rewrite (game_get get_request 0 huge_state (2 ^ 63) (2 ^ 63)). }
  do 3 (split; [reflexivity |]). split; [exact Hgame |].
  rewrite Hgame. cbn. lia.
Qed.

Lemma game_get_snapshot_witness :
  req_method get_request = GET
  /\ session (@midgame_state always_safe) !! "score" = Some 3%Z
  /\ session (@midgame_state always_safe) !! "total" = Some 5%Z
  /\ sqlite_int 3 = true /\ sqlite_int 5 = true
  /\ (exists page st',
        @game always_safe get_request 2 midgame_state = (Ok page, st')
        /\ session st' = session (@midgame_state always_safe)
        /\ scans (db st') = scans (db (@midgame_state always_safe))
        /\ game_scores (db st') =
             game_scores (db (@midgame_state always_safe)) ++
             [{| gs_id := next_id (map gs_id
                                     (game_scores (db (@midgame_state always_safe))));
                 gs_score := 3; gs_total := 5; gs_level := level_of 3 |}]
        /\ score page = 3%Z /\ total page = 5%Z /\ level page = level_of 3
        /\ feedback page = None)
  /\ session (@huge_state always_safe) !! "score" = Some (2 ^ 63)%Z
  /\ session (@huge_state always_safe) !! "total" = Some (2 ^ 63)%Z
  /\ sqlite_int (2 ^ 63) = false
  /\ @game always_safe get_request 2 huge_state = (OverflowError, huge_state).
Proof.
  do 5 (split; [reflexivity |]). split; [| do 3 (split; [reflexivity |])].
  - apply (@game_get_snapshot always_safe get_request 2 midgame_state 3%Z 5%Z);
      reflexivity.
  - apply (@game_get_snapshot always_safe get_request 2 huge_state
             (2 ^ 63)%Z (2 ^ 63)%Z); try reflexivity.
    left. reflexivity.
Defined.

Lemma home_get_frame_witness :
  req_method get_request = GET
  /\ @home ascii_only always_safe get_request initial_state =
     (Ok ({| result := None; confidence := None;
             email_text := []; highlighted_text := [] |}
          : @scan_page always_safe), initial_state).
Proof.
  split; [reflexivity |].
  apply (@home_get_frame ascii_only always_safe get_request initial_state).
  reflexivity.
Defined.

(** * Further properties of the code *)

(** ** [clean_text] *)

Section CleanTextMore.
Context {L : StrLower}.

Lemma forallb_sub_url_from (P : N -> bool) b s :
  forallb P s = true -> forallb P (sub_url_from b s) = true.
Proof.
  revert b. induction s as [| c r IH]; intros b; [done |].
  cbn [forallb]. intros [Hc Hr]%andb_true_iff. cbn [sub_url_from].
  destruct b.
  - destruct (is_space c); cbn [forallb]; rewrite ?Hc; cbn [andb]; auto.
  - destruct (url_at (c :: r)); cbn [forallb]; rewrite ?Hc; cbn [andb]; auto.
Qed.

Lemma starts_blank_sub_url_true r : starts_blank (sub_url_from true r) = true.
Proof.
  induction r as [| c r IH]; [done |]. cbn [sub_url_from].
  destruct (is_space c) eqn:E; [| done]. cbn. exact E.
Qed.

(** A character that is not whitespace at the head of the output is the
    head of the input, and no match starts there. *)
Lemma sub_url_cons r x out :
  sub_url_from false r = x :: out -> is_space x = false ->
  url_at r = false /\ exists r', r = x :: r' /\ sub_url_from false r' = out.
Proof.
  destruct r as [| c r']; [done |]. cbn [sub_url_from].
  destruct (url_at (c :: r')) eqn:E.
  - intros Hout Hx. pose proof (starts_blank_sub_url_true r') as Hb.
    rewrite Hout in Hb. cbn in Hb. congruence.
  - intros [= -> <-] _. eauto.
Qed.

Lemma url_at_spec s :
  url_at s = true <->
  exists c r, s = 104%N :: 116%N :: 116%N :: 112%N :: c :: r
              /\ is_space c = false.
Proof.
  split.
  - destruct s as [| h [| t1 [| t2 [| p [| c r]]]]]; try done. cbn.
    rewrite !andb_true_iff, negb_true_iff. unfold char_eqb.
    rewrite !N.eqb_eq. intros ((((-> & ->) & ->) & ->) & Hc). eauto.
  - intros (c & r & -> & Hc). cbn. now rewrite Hc.
Qed.

(** No match starts at a character that is kept. *)
Lemma url_at_sub_url c r :
  url_at (c :: sub_url_from false r) = true -> url_at (c :: r) = true.
Proof.
  intros (x & rest & [= -> Hout] & Hx)%url_at_spec.
  apply sub_url_cons in Hout as (_ & r1 & -> & Hout); [| done].
  apply sub_url_cons in Hout as (_ & r2 & -> & Hout); [| done].
  apply sub_url_cons in Hout as (_ & r3 & -> & Hout); [| done].
  apply sub_url_cons in Hout as (_ & r4 & -> & Hout); [| done].
  apply url_at_spec. eauto.
Qed.

(** Step 2 removes every match: none is left in its output. *)
Lemma has_url_sub_url_from b s : has_url (sub_url_from b s) = false.
Proof.
  revert b. induction s as [| c r IH]; intros b; [done |].
  cbn [sub_url_from]. destruct b.
  - destruct (is_space c) eqn:E; [| apply IH].
    cbn [has_url]. rewrite IH, orb_false_r.
    destruct (url_at _) eqn:Eu; [| done].
    apply url_at_spec in Eu as (x & rest & [= -> _] & _). done.
  - destruct (url_at (c :: r)) eqn:E; [apply IH |].
    cbn [has_url]. rewrite IH, orb_false_r.
    destruct (url_at (c :: sub_url_from false r)) eqn:Eu; [| done].
    apply url_at_sub_url in Eu. congruence.
Qed.

Lemma sub_spaces_cons r x out :
  sub_spaces_from false r = x :: out -> is_space x = false ->
  exists r', r = x :: r' /\ sub_spaces_from false r' = out.
Proof.
  destruct r as [| c r']; [done |]. cbn [sub_spaces_from].
  destruct (is_space c) eqn:E.
  - intros [= <- _] Hx. done.
  - intros [= -> <-] _. eauto.
Qed.

Lemma url_at_sub_spaces c r :
  url_at (c :: sub_spaces_from false r) = true -> url_at (c :: r) = true.
Proof.
  intros (x & rest & [= -> Hout] & Hx)%url_at_spec.
  apply sub_spaces_cons in Hout as (r1 & -> & Hout); [| done].
  apply sub_spaces_cons in Hout as (r2 & -> & Hout); [| done].
  apply sub_spaces_cons in Hout as (r3 & -> & Hout); [| done].
  apply sub_spaces_cons in Hout as (r4 & -> & Hout); [| done].
  apply url_at_spec. eauto.
Qed.

Lemma url_at_blank c r : is_space c = true -> url_at (c :: r) = false.
Proof.
  intros Hc. destruct (url_at (c :: r)) eqn:E; [| done].
  apply url_at_spec in E as (x & rest & [= -> _] & _). done.
Qed.

(** Step 4 joins no two words: it makes no match. *)
Lemma has_url_sub_spaces_from b s :
  has_url s = false -> has_url (sub_spaces_from b s) = false.
Proof.
  revert b. induction s as [| c r IH]; intros b; [done |].
  cbn [has_url]. intros [Hc Hr]%orb_false_iff. cbn [sub_spaces_from].
  destruct (is_space c) eqn:E.
  - destruct b; [auto |]. cbn [has_url]. rewrite IH by done.
    now rewrite url_at_blank.
  - cbn [has_url]. rewrite IH, orb_false_r by done.
    destruct (url_at (c :: sub_spaces_from false r)) eqn:Eu; [| done].
    apply url_at_sub_spaces in Eu. congruence.
Qed.

Lemma has_url_lstrip s : has_url s = false -> has_url (lstrip s) = false.
Proof.
  induction s as [| c r IH]; [done |]. intros Hs. cbn [lstrip].
  destruct (is_space c); [| done]. apply IH.
  cbn [has_url] in Hs. now apply orb_false_iff in Hs.
Qed.

Lemma rstrip_prefix s : exists tail, s = rstrip s ++ tail.
Proof.
  induction s as [| c r [tail IH]]; [now exists [] |]. rewrite rstrip_cons.
  destruct (rstrip r) as [| d r'] eqn:E.
  - destruct (is_space c); [now exists (c :: r) | now exists r].
  - exists tail. cbn [app]. f_equal. exact IH.
Qed.

Lemma url_at_app s tail : url_at s = true -> url_at (s ++ tail) = true.
Proof.
  intros (c & r & -> & Hc)%url_at_spec. apply url_at_spec. cbn. eauto.
Qed.

Lemma has_url_app s tail : has_url (s ++ tail) = false -> has_url s = false.
Proof.
  induction s as [| c r IH]; [done |]. cbn [app has_url].
  intros [Hc Hr]%orb_false_iff. rewrite IH, orb_false_r by done.
  destruct (url_at (c :: r)) eqn:E; [| done].
  apply (url_at_app _ tail) in E.
  change ((c :: r) ++ tail) with (c :: (r ++ tail)) in E. congruence.
Qed.

Lemma has_url_rstrip s : has_url s = false -> has_url (rstrip s) = false.
Proof.
  intros Hs. destruct (rstrip_prefix s) as [tail Heq].
  rewrite Heq in Hs. now apply has_url_app in Hs.
Qed.

Lemma letters_and_spaces_wordy t :
  wordy t = true -> letters_and_spaces t = true.
Proof.
  unfold wordy, letters_and_spaces. induction t as [| c r IH]; [done |].
  cbn [forallb]. intros [Hc Hr]%andb_true_iff. rewrite IH, andb_true_r by done.
  apply wordy_char_spec in Hc.
  rewrite orb_true_iff, is_az_spec, is_space_spec. lia.
Qed.

Lemma sub_non_alpha_letters_and_spaces s :
  letters_and_spaces s = true -> sub_non_alpha s = s.
Proof.
  unfold letters_and_spaces, sub_non_alpha.
  induction s as [| c r IH]; [done |]. cbn.
  intros [Hc Hr]%andb_true_iff. now rewrite Hc, IH.
Qed.

(** Where step 3 has nothing to remove, the cleaned text holds no match. *)
Lemma clean_text_no_url text :
  letters_and_spaces (lower text) = true ->
  has_url (clean_text text) = false.
Proof.
  intros Hl. unfold clean_text, strip, sub_spaces.
  rewrite sub_non_alpha_letters_and_spaces
    by now apply forallb_sub_url_from.
  apply has_url_rstrip, has_url_lstrip, has_url_sub_spaces_from.
  apply has_url_sub_url_from.
Qed.

Lemma lstrip_sub_spaces_blank b s :
  forallb is_space s = true -> lstrip (sub_spaces_from b s) = [].
Proof.
  revert b. induction s as [| c r IH]; intros b; [done |].
  cbn [forallb]. intros [Hc Hr]%andb_true_iff. cbn [sub_spaces_from].
  rewrite Hc. destruct b; [auto |]. cbn [lstrip].
  assert (is_space SPACE = true) as -> by reflexivity. auto.
Qed.

Lemma sub_non_alpha_no_lowercase s :
  no_lowercase s = true -> forallb is_space (sub_non_alpha s) = true.
Proof.
  unfold no_lowercase, sub_non_alpha. induction s as [| c r IH]; [done |].
  cbn. intros [Hc%negb_true_iff Hr]%andb_true_iff. rewrite Hc. cbn.
  destruct (is_space c) eqn:E; cbn; rewrite ?E; auto.
Qed.

(** X1.  Whatever it is given, [clean_text] returns lowercase letters and
    single spaces only, with no space at either end. *)
Theorem clean_text_shaped text : shaped (clean_text text).
Proof. apply clean_text_shape. Qed.

(** X2.  The texts that [clean_text] returns unchanged are the texts in
    that shape that hold no match of the URL pattern. *)
Theorem clean_text_fixed_points t :
  clean_text t = t <-> shaped t /\ has_url t = false.
Proof.
  split.
  - intros Heq. pose proof (clean_text_shape t) as Hs. cbn zeta in Hs.
    rewrite Heq in Hs. split; [exact Hs |].
    destruct Hs as (Hw & _). destruct (has_url t) eqn:Hu; [| done].
    pose proof (clean_text_shrinks_urls t Hw Hu) as Hlt.
    rewrite Heq in Hlt. lia.
  - intros ((Hw & Hn & Hh & Hr) & Hu). now apply clean_text_fixed.
Qed.

(** X3.  A second cleaning can change the text, a third never does. *)
Theorem clean_text_stable_after_two text :
  clean_text (clean_text (clean_text text)) = clean_text (clean_text text).
Proof.
  destruct (clean_text_shape text) as (Hw & _).
  destruct (clean_text_shape (clean_text text)) as (Hw2 & Hn2 & Hh2 & Hr2).
  apply clean_text_fixed; try done.
  apply clean_text_no_url. rewrite lower_wordy by done.
  now apply letters_and_spaces_wordy.
Qed.

(** X4.  Cleaning is idempotent on every text whose lowercase form has
    letters [a-z] and whitespace only, that is, where step 3 removes
    nothing. *)
Theorem clean_text_idempotent_on_letters text :
  letters_and_spaces (lower text) = true ->
  clean_text (clean_text text) = clean_text text.
Proof.
  intros Hl. destruct (clean_text_shape text) as (Hw & Hn & Hh & Hr).
  apply clean_text_fixed; try done. now apply clean_text_no_url.
Qed.

(** X5.  A text whose lowercase form has no letter [a-z] is cleaned to
    the empty string. *)
Theorem clean_text_without_letters text :
  no_lowercase (lower text) = true -> clean_text text = [].
Proof.
  intros Hl. unfold clean_text, strip, sub_spaces.
  rewrite lstrip_sub_spaces_blank; [done |].
  apply sub_non_alpha_no_lowercase. now apply forallb_sub_url_from.
Qed.

(** X6.  Cleaning never makes a text longer than its lowercase form. *)
Theorem clean_text_length text :
  length (clean_text text) <= length (lower text).
Proof.
  unfold clean_text, strip, sub_spaces.
  pose proof (sub_url_from_length false (lower text)).
  pose proof (sub_non_alpha_length (sub_url (lower text))).
  pose proof (sub_spaces_from_length false (sub_non_alpha (sub_url (lower text)))).
  pose proof (lstrip_length
    (sub_spaces_from false (sub_non_alpha (sub_url (lower text))))).
  pose proof (rstrip_length
    (lstrip (sub_spaces_from false (sub_non_alpha (sub_url (lower text)))))).
  unfold sub_url in *. lia.
Qed.
End CleanTextMore.

(** ** The highlighting loop *)

Section HighlightMore.

Lemma startswith_existsb (P : N -> bool) q s :
  startswith q s = true -> existsb P q = true -> existsb P s = true.
Proof.
  intros [x ->]%startswith_split Hq. rewrite existsb_app, Hq. done.
Qed.

Lemma no_lowercase_existsb s : no_lowercase s = true -> existsb is_az s = false.
Proof.
  unfold no_lowercase. induction s as [| c r IH]; [done |]. cbn.
  intros [Hc%negb_true_iff Hr]%andb_true_iff. now rewrite Hc, IH.
Qed.

(** The single pass copies text in which no form occurs. *)
Lemma wrap_from_no_match forms s :
  (forall q, In q forms -> existsb is_az q = true) ->
  no_lowercase s = true -> wrap_from forms 0 s = s.
Proof.
  intros Hforms. induction s as [| c r IH]; [done |]. intros Hs.
  rewrite wrap_from_miss.
  - f_equal. apply IH. unfold no_lowercase in *. cbn in Hs.
    now apply andb_true_iff in Hs.
  - destruct (form_at forms (c :: r)) as [q |] eqn:E; [| done].
    apply form_at_some in E as [Hq E].
    apply (startswith_existsb is_az) in E; [| auto].
    now rewrite no_lowercase_existsb in E.
Qed.

Lemma startswith_refl q : startswith q q = true.
Proof. rewrite <- (app_nil_r q) at 2. apply startswith_app. Qed.

Lemma startswith_cancel a q s :
  startswith (a ++ q) (a ++ s) = startswith q s.
Proof.
  induction a as [| c a IH]; [done |]. cbn. rewrite IH.
  unfold char_eqb. now rewrite N.eqb_refl.
Qed.

Lemma clear_of_suffix w a b : clear_of w (a ++ b) = true -> clear_of w b = true.
Proof.
  induction a as [| c a IH]; [done |]. cbn [app clear_of].
  intros [_ H]%andb_true_iff. auto.
Qed.

(** A form that starts before an occurrence of [w] ends before it. *)
Lemma startswith_before_form w q c r x :
  clear_of w (tl q) = true ->
  startswith q ((c :: r) ++ w ++ x) = startswith q (c :: r).
Proof.
  intros Hcl. destruct (startswith q (c :: r)) eqn:E.
  { destruct (startswith_split _ _ E) as [y ->]. rewrite <- app_assoc.
    apply startswith_app. }
  destruct (startswith q ((c :: r) ++ w ++ x)) eqn:E2; [| done]. exfalso.
  pose proof E2 as E3. apply startswith_within in E3 as [E3 | E3]; [congruence |].
  destruct (startswith_split _ _ E3) as [q2 ->].
  rewrite startswith_cancel in E2.
  destruct q2 as [| d q2].
  { rewrite app_nil_r, startswith_refl in E. done. }
  change (tl ((c :: r) ++ d :: q2)) with (r ++ d :: q2) in Hcl.
  apply clear_of_suffix in Hcl. cbn [clear_of] in Hcl.
  apply andb_true_iff in Hcl as [Hd _].
  unfold diverge in Hd. apply andb_true_iff in Hd as [H1 H2].
  apply startswith_within in E2 as [E2 | E2]; rewrite E2 in *; done.
Qed.

(** The single pass treats the text before [rest] on its own when no form
    that starts in that text reaches into [rest]. *)
Lemma wrap_from_app_bounded forms rest n :
  Forall (fun q => q <> []) forms ->
  (forall q c r, In q forms ->
     startswith q ((c :: r) ++ rest) = startswith q (c :: r)) ->
  forall u, length u <= n ->
    wrap_from forms 0 (u ++ rest)
    = wrap_from forms 0 u ++ wrap_from forms 0 rest.
Proof.
  intros Hforms Hsplit. induction n as [| n IH]; intros u Hlen.
  { destruct u; [done | simpl in Hlen; lia]. }
  destruct u as [| c r]; [done |].
  assert (form_at forms ((c :: r) ++ rest) = form_at forms (c :: r)) as Eat.
  { apply form_at_ext. intros w Hw. now apply Hsplit. }
  destruct (form_at forms (c :: r)) as [w |] eqn:E.
  - destruct (form_at_some _ _ _ E) as [Hw [x Hx]%startswith_split].
    assert (w <> []) as Hwne by (rewrite List.Forall_forall in Hforms; auto).
    rewrite Hx in *. rewrite <- app_assoc in Eat |- *.
    rewrite (wrap_from_hit forms w x), (wrap_from_hit forms w (x ++ rest))
      by done.
    rewrite <- app_assoc. f_equal.
    apply IH. rewrite length_app in Hlen.
    destruct w; [done | simpl in Hlen; lia].
  - change ((c :: r) ++ rest) with (c :: (r ++ rest)) in *.
    rewrite !wrap_from_miss by done. simpl. f_equal.
    apply IH. simpl in Hlen. lia.
Qed.

Lemma form_at_self forms w x :
  In w forms ->
  (forall q, In q forms -> str_eqb q w || diverge q w = true) ->
  form_at forms (w ++ x) = Some w.
Proof.
  unfold form_at. induction forms as [| q forms IH]; [done |].
  intros Hin Hq. cbn [find].
  destruct (startswith q (w ++ x)) eqn:E.
  - specialize (Hq q (or_introl eq_refl)).
    apply orb_true_iff in Hq as [Hq%str_eqb_eq | Hq]; [now subst |].
    now rewrite (diverge_app _ _ x Hq) in E.
  - destruct Hin as [-> | Hin]; [now rewrite startswith_app in E |].
    apply IH; [done |]. intros q' Hq'. apply Hq. now right.
Qed.

Lemma forms_apart_spec forms w q :
  forms_apart forms = true -> In w forms -> In q forms ->
  clear_of w (tl q) = true /\ str_eqb q w || diverge q w = true.
Proof.
  unfold forms_apart. rewrite forallb_forall. intros Hall Hw Hq.
  specialize (Hall w Hw). rewrite forallb_forall in Hall.
  specialize (Hall q Hq). now apply andb_true_iff in Hall.
Qed.

(** Every occurrence of a form is wrapped, whatever stands around it. *)
Lemma wrap_from_occurrence forms w u x :
  Forall (fun q => q <> []) forms -> forms_apart forms = true ->
  In w forms ->
  wrap_from forms 0 (u ++ w ++ x)
  = wrap_from forms 0 u ++ span w ++ wrap_from forms 0 x.
Proof.
  intros Hforms Hap Hw.
  rewrite (wrap_from_app_bounded forms (w ++ x) (length u)); try done.
  - f_equal. apply wrap_from_hit.
    + rewrite List.Forall_forall in Hforms. auto.
    + apply form_at_self; [done |]. intros q Hq.
      now destruct (forms_apart_spec forms w q Hap Hw Hq).
  - intros q c r Hq. apply startswith_before_form.
    now destruct (forms_apart_spec forms w q Hap Hw Hq).
Qed.

Lemma in_no_form_untouched c :
  in_no_form c = true -> untouched highlight_forms [c] = true.
Proof.
  unfold in_no_form, untouched. rewrite !forallb_forall. intros Hc q Hq.
  specialize (Hc q Hq). apply negb_true_iff in Hc.
  assert (forallb (fun q => 2 <=? length q) highlight_forms = true) as Hlen
    by reflexivity.
  rewrite forallb_forall in Hlen. specialize (Hlen q Hq).
  destruct q as [| a [| b q]]; try done.
  cbn [existsb] in Hc. apply orb_false_iff in Hc as [Ha Hc].
  cbn [tl]. change (existsb (char_eqb c) (b :: q))
    with (char_eqb c b || existsb (char_eqb c) q).
  rewrite Hc. cbn [clear_of negb]. rewrite !andb_true_r.
  unfold diverge. cbn [startswith]. rewrite Ha, andb_false_r. done.
Qed.

(** X7.  Text without a lowercase letter is not changed by the
    highlighting loop. *)
Theorem highlight_without_lowercase s :
  no_lowercase s = true -> highlight s = s.
Proof.
  intros Hs. rewrite highlight_one_pass. unfold wrap_occurrences.
  apply wrap_from_no_match; [| done].
  intros q Hq.
  assert (forallb (existsb is_az) highlight_forms = true) as Hall
    by reflexivity.
  rewrite forallb_forall in Hall. auto.
Qed.

(** X8.  Every occurrence of a listed word, in lowercase or capitalized,
    is wrapped in the marker wherever it stands, also inside a longer word,
    and the text before it and the text behind it are highlighted on their
    own. *)
Theorem highlight_every_occurrence w u x :
  In w highlight_forms ->
  highlight (u ++ w ++ x) = highlight u ++ span w ++ highlight x.
Proof.
  intros Hw. rewrite !highlight_one_pass. unfold wrap_occurrences.
  apply wrap_from_occurrence; [apply highlight_forms_nonempty | | done].
  vm_compute. reflexivity.
Qed.

(** X9.  A character that is in none of the listed words separates the
    text: the loop highlights what is before it and what is behind it on
    their own and copies the character. *)
Theorem highlight_splits_at_separator c u v :
  in_no_form c = true ->
  highlight (u ++ c :: v) = highlight u ++ c :: highlight v.
Proof.
  intros Hc. rewrite !highlight_one_pass. unfold wrap_occurrences.
  apply (wrap_from_untouched highlight_forms [c] u v).
  - apply highlight_forms_nonempty.
  - now apply in_no_form_untouched.
Qed.
End HighlightMore.

(** ** The quiz *)

Section GameMore.
Context {L : StrLower} {C : Classifier}.

Ltac hstep :=
  repeat first
    [ rewrite bind_assoc | rewrite bind_ret | rewrite bind_form_get
    | rewrite bind_session_get | rewrite bind_session_set
    | rewrite bind_session_contains | rewrite bind_insert_game_score
    | rewrite bind_insert_scan ];
  cbn [session db].

Lemma first_missing_none f :
  first_missing f = None <->
  exists choice correct reason,
    f !! "choice" = Some choice /\ f !! "correct" = Some correct
    /\ f !! "reason" = Some reason.
Proof.
  unfold first_missing. split.
  - destruct (f !! "choice"), (f !! "correct"), (f !! "reason"); try done.
    eauto 7.
  - intros (a & b & c & -> & -> & ->). done.
Qed.

(** A POST that lacks a field, on a session that has a score: the first
    field found missing is reported and nothing is written. *)
Lemma game_post_first_missing req draw st key :
  req_method req = POST -> is_Some (session st !! "score") ->
  first_missing (form req) = Some key ->
  game req draw st = (BadRequestKeyError key, st).
Proof.
  intros Hm Hs. unfold first_missing, game. rewrite Hm. hstep.
  rewrite bool_decide_true by done. hstep.
  destruct (form req !! "choice") as [choice |]; [| now intros [= <-]]. hstep.
  destruct (form req !! "correct") as [correct |]; [| now intros [= <-]]. hstep.
  destruct (form req !! "reason") as [reason |]; [| now intros [= <-]]. done.
Qed.

(** One request to [/game] on a session with a score and a total: both
    are still there, neither has gone down, each has gone up by at most one
    and the score by no more than the total. *)
Lemma game_step_started req draw st sc t :
  session st !! "score" = Some sc -> session st !! "total" = Some t ->
  exists sc' t',
    session (snd (game req draw st)) !! "score" = Some sc'
    /\ session (snd (game req draw st)) !! "total" = Some t'
    /\ (sc <= sc' <= sc + 1)%Z /\ (t <= t' <= t + 1)%Z
    /\ (sc' - sc <= t' - t)%Z.
Proof.
  intros Hs Ht. destruct (req_method req) eqn:Hm.
  - rewrite (game_get req draw st sc t) by done.
    destruct (sqlite_int sc && sqlite_int t); cbn;
      exists sc, t; repeat split; try done; lia.
  - destruct (first_missing (form req)) as [key |] eqn:Hf.
    + rewrite (game_post_first_missing req draw st key) by eauto.
      exists sc, t. repeat split; try done; lia.
    + apply first_missing_none in Hf
        as (choice & correct & reason & Hch & Hco & Hre).
      rewrite (game_post_session req draw st sc t choice correct reason)
        by done.
      destruct (str_eqb choice correct).
      * exists (sc + 1)%Z, (t + 1)%Z.
        rewrite lookup_insert_eq, lookup_insert_ne, lookup_insert_eq by done.
        repeat split; lia.
      * exists sc, (t + 1)%Z.
        rewrite lookup_insert_ne, lookup_insert_eq by done.
        repeat split; try done; lia.
Qed.

Lemma level_rank_mono a b :
  (a <= b)%Z -> (level_rank (level_of a) <= level_rank (level_of b))%Z.
Proof.
  intros Hab. unfold level_of.
  destruct (Z.ltb_spec a 3), (Z.ltb_spec a 6), (Z.ltb_spec b 3),
    (Z.ltb_spec b 6); cbn; lia.
Qed.

(** X10.  Without a reset, the score, the total and the level never go
    down: after any sequence of requests to [/game] on a session with a
    score and a total, the score has grown by at most the growth of the
    total, which is at most the number of requests, and the level is at
    least what it was. *)
Theorem game_progress_monotone (reqs : list (request * nat)) st sc t :
  session st !! "score" = Some sc -> session st !! "total" = Some t ->
  exists sc' t',
    session (run st (map game_request reqs)) !! "score" = Some sc'
    /\ session (run st (map game_request reqs)) !! "total" = Some t'
    /\ (0 <= sc' - sc <= t' - t)%Z
    /\ (t' - t <= Z.of_nat (length reqs))%Z
    /\ (level_rank (level_of sc) <= level_rank (level_of sc'))%Z.
Proof.
  revert st sc t. induction reqs as [| [req draw] reqs IH]; intros st sc t Hs Ht.
  - exists sc, t. cbn. repeat split; try done; try lia.
  - cbn [map]. rewrite run_cons. cbn [game_request step fst snd].
    destruct (game_step_started req draw st sc t Hs Ht)
      as (sc1 & t1 & Hs1 & Ht1 & Hsc1 & Ht1' & Hd1).
    destruct (IH _ sc1 t1 Hs1 Ht1) as (sc2 & t2 & Hs2 & Ht2 & Hd2 & Hn2 & Hl2).
    exists sc2, t2. repeat split; try done; try (cbn [length]; lia).
    etransitivity; [| exact Hl2]. apply level_rank_mono. lia.
Qed.


End GameMore.

(** ** Errors, frames and the reset *)

Section RoutesMore.
Context {L : StrLower} {C : Classifier}.

Ltac rstep :=
  repeat first
    [ rewrite bind_assoc | rewrite bind_ret | rewrite bind_form_get
    | rewrite bind_session_get | rewrite bind_session_set
    | rewrite bind_session_contains | rewrite bind_insert_game_score
    | rewrite bind_insert_scan ];
  cbn [session db].

Ltac rrun :=
  repeat progress
    (rstep; repeat (rewrite ?lookup_insert_eq, ?lookup_insert_ne by done);
     try match goal with
         | H : _ !! _ = _ |- _ => rewrite H
         end).


Lemma started_lookups (s : gmap string Z) :
  <["total" := 0%Z]> (<["score" := 0%Z]> s) !! "score" = Some 0%Z
  /\ <["total" := 0%Z]> (<["score" := 0%Z]> s) !! "total" = Some 0%Z.
Proof.
  split.
  - now rewrite lookup_insert_ne, lookup_insert_eq.
  - now rewrite lookup_insert_eq.
Qed.

(** A session with a score and without a total, which no run from a
    fresh session reaches: the request raises [KeyError] unless a field is
    missing first. *)
Lemma game_no_total_outcome req draw st :
  is_Some (session st !! "score") -> session st !! "total" = None ->
  req_method req = GET \/ first_missing (form req) = None ->
  game req draw st = (KeyError "total", st).
Proof.
  intros Hs Ht Hr. pose proof Hs as [sc Hsc]. unfold game. rstep.
  rewrite bool_decide_true by done. rstep.
  destruct (req_method req) eqn:Hm.
  - now rrun.
  - destruct Hr as [Hr | Hr]; [done |].
    apply first_missing_none in Hr as (choice & correct & reason & Hch & Hco & Hre).
    now rrun.
Qed.


Lemma game_outcome_started req draw st sc t :
  session st !! "score" = Some sc -> session st !! "total" = Some t ->
  match fst (game req draw st) with
  | Ok _ => req_method req = GET \/ first_missing (form req) = None
  | BadRequestKeyError key =>
      req_method req = POST /\ first_missing (form req) = Some key
  | KeyError _ => False
  | OverflowError => req_method req = GET \/ first_missing (form req) = None
  end.
Proof.
  intros Hs Ht. destruct (req_method req) eqn:Hm.
  - rewrite (game_get req draw st sc t) by done.
    destruct (sqlite_int sc && sqlite_int t); cbn; now left.
  - destruct (first_missing (form req)) as [key |] eqn:Hf.
    + rewrite (game_post_first_missing req draw st key) by eauto. now cbn.
    + pose proof Hf as (choice & correct & reason & Hch & Hco & Hre)%first_missing_none.
      rewrite (game_post req draw st sc t choice correct reason) by done.
      cbn zeta.
      match goal with
      | |- context [sqlite_int ?a && sqlite_int ?b] =>
          destruct (sqlite_int a && sqlite_int b)
      end; cbn; now right.
Qed.

Lemma game_outcome_ok_session req draw st :
  session_ok (session st) ->
  match fst (game req draw st) with
  | Ok _ => req_method req = GET \/ first_missing (form req) = None
  | BadRequestKeyError key =>
      req_method req = POST /\ first_missing (form req) = Some key
  | KeyError _ => False
  | OverflowError => req_method req = GET \/ first_missing (form req) = None
  end.
Proof.
  intros [Hn | (sc & t & Hs & Ht & _)].
  - rewrite game_first_access by done.
    destruct (started_lookups (session st)) as [Hs Ht].
    now apply (game_outcome_started req draw _ 0%Z 0%Z).
  - now apply (game_outcome_started req draw st sc t).
Qed.

Lemma run_session_ok rs : session_ok (session (run initial_state rs)).
Proof.
  destruct (run_effect rs initial_state) as (Hok & _). apply Hok.
  left. apply lookup_empty.
Qed.

(** X13.  In no state that a run from a fresh session and an empty
    database reaches does [/game] raise [KeyError].  A POST that lacks a
    field gets the bad-request error for the first that is missing, and
    only such a POST gets it; what is answered, or stopped by the INSERT
    of a counter too large for [sqlite3], is a GET or a POST with its
    three fields. *)
Theorem game_never_key_error rs req draw :
  match fst (game req draw (run initial_state rs)) with
  | Ok _ => req_method req = GET \/ first_missing (form req) = None
  | BadRequestKeyError key =>
      req_method req = POST /\ first_missing (form req) = Some key
  | KeyError _ => False
  | OverflowError => req_method req = GET \/ first_missing (form req) = None
  end.
Proof. apply game_outcome_ok_session, run_session_ok. Qed.

Lemma same_but_question_started req d1 d2 st sc t :
  session st !! "score" = Some sc -> session st !! "total" = Some t ->
  same_but_question (game req d1 st) (game req d2 st).
Proof.
  intros Hs Ht. destruct (req_method req) eqn:Hm.
  - rewrite !(game_get req _ st sc t) by done.
    now destruct (sqlite_int sc && sqlite_int t).
  - destruct (first_missing (form req)) as [key |] eqn:Hf.
    + rewrite !(game_post_first_missing req _ st key) by eauto. now cbn.
    + pose proof Hf as (choice & correct & reason & Hch & Hco & Hre)%first_missing_none.
      rewrite !(game_post req _ st sc t choice correct reason) by done.
      cbn zeta.
      match goal with
      | |- context [sqlite_int ?a && sqlite_int ?b] =>
          destruct (sqlite_int a && sqlite_int b)
      end; now cbn.
Qed.

(** X14.  The question drawn at random has no part in what [/game] does:
    with another draw the session, the two tables, the outcome, the
    feedback, the score, the total and the level are the same. *)
Theorem game_ignores_draw req d1 d2 st :
  same_but_question (game req d1 st) (game req d2 st).
Proof.
  destruct (session st !! "score") as [sc |] eqn:Hs.
  - destruct (session st !! "total") as [t |] eqn:Ht.
    + now apply (same_but_question_started req d1 d2 st sc t).
    + destruct (req_method req) eqn:Hm.
      * rewrite !(game_no_total_outcome req _ st) by (rewrite ?Hs; eauto).
        now cbn.
      * destruct (first_missing (form req)) as [key |] eqn:Hf.
        -- rewrite !(game_post_first_missing req _ st key) by (rewrite ?Hs; eauto).
           now cbn.
        -- rewrite !(game_no_total_outcome req _ st) by (rewrite ?Hs; eauto).
           now cbn.
  - rewrite (game_first_access req d1 st), (game_first_access req d2 st)
      by done.
    destruct (started_lookups (session st)) as [Hs1 Ht1].
    now apply (same_but_question_started req d1 d2 _ 0%Z 0%Z).
Qed.

(** X15.  The scanner and the quiz do not touch each other's state: [/]
    leaves the session and [game_scores] as they are, [/game] leaves
    [scans] as it is, and [/reset-game] leaves both tables as they are. *)
Theorem scan_and_quiz_apart :
  (forall req st,
      session (snd (home req st)) = session st
      /\ game_scores (db (snd (home req st))) = game_scores (db st))
  /\ (forall req draw st, scans (db (snd (game req draw st))) = scans (db st))
  /\ (forall st, db (snd (reset_game st)) = db st).
Proof.
  split; [| split].
  - intros req st. apply home_effect.
  - intros req draw st. now destruct (game_effect req draw st) as (-> & _).
  - done.
Qed.

(** X16.  After [/reset-game] the quiz starts again from nothing: the
    next GET of [/game] shows score 0, total 0 and level Beginner, stores
    that row behind the rows already there, of which none is removed, and
    leaves the session at [{score: 0, total: 0}]. *)
Theorem reset_then_game req draw st :
  req_method req = GET ->
  game req draw (snd (reset_game st)) =
    (Ok {| question := random_choice draw QUIZ_QUESTIONS no_question;
           feedback := None; score := 0; total := 0; level := Beginner |},
     {| session := started_session;
        db := {| scans := scans (db st);
                 game_scores := game_scores (db st) ++
                   [{| gs_id := next_id (map gs_id (game_scores (db st)));
                       gs_score := 0; gs_total := 0;
                       gs_level := Beginner |}] |} |}).
Proof.
  intros Hm. cbn [reset_game session_clear snd].
  rewrite game_first_access by apply lookup_empty. cbn [session db].
  destruct (started_lookups ∅) as [Hs Ht].
  now rewrite (game_get req draw _ 0%Z 0%Z).
Qed.
End RoutesMore.

(** ** The two tables and their listings *)

Section TablesMore.
Context {L : StrLower} {C : Classifier}.

Lemma fold_max_init a l :
  (0 <= a)%Z -> fold_right Z.max a l = Z.max a (fold_right Z.max 0%Z l).
Proof. intros Ha. induction l as [| y l IH]; cbn; lia. Qed.

Lemma first_ids_succ n : first_ids (S n) = first_ids n ++ [Z.of_nat (S n)].
Proof. unfold first_ids. now rewrite seq_S, map_app. Qed.

Lemma first_ids_max n : fold_right Z.max 0%Z (first_ids n) = Z.of_nat n.
Proof.
  induction n as [| n IH]; [done |].
  rewrite first_ids_succ, fold_right_app. cbn [fold_right].
  rewrite fold_max_init, IH by lia. lia.
Qed.

Lemma next_id_first_ids n : next_id (first_ids n) = Z.of_nat (S n).
Proof. unfold next_id. rewrite first_ids_max. lia. Qed.

Lemma first_ids_bound n x : In x (first_ids n) -> (x <= Z.of_nat n)%Z.
Proof.
  unfold first_ids. intros (k & <- & Hk%in_seq)%in_map_iff. lia.
Qed.

Lemma first_ids_ascending n : StronglySorted Z.lt (first_ids n).
Proof.
  induction n as [| n IH]; [constructor |].
  rewrite first_ids_succ. apply ascending_snoc; [done |].
  intros y Hy%first_ids_bound. lia.
Qed.

(** The rows that one request to [/game] adds: none, or one with the next
    id. *)
Lemma game_rows req draw st :
  exists new,
    game_scores (db (snd (game req draw st))) = game_scores (db st) ++ new
    /\ (new = []
        \/ exists row, new = [row]
             /\ gs_id row = next_id (map gs_id (game_scores (db st)))).
Proof.
  assert (forall st sc t,
             session st !! "score" = Some sc -> session st !! "total" = Some t ->
             exists new,
               game_scores (db (snd (game req draw st)))
               = game_scores (db st) ++ new
               /\ (new = []
                   \/ exists row, new = [row]
                        /\ gs_id row = next_id (map gs_id (game_scores (db st)))))
    as Hstarted.
  { clear st. intros st sc t Hs Ht. destruct (req_method req) eqn:Hm.
    - rewrite (game_get req draw st sc t) by done.
      destruct (sqlite_int sc && sqlite_int t); cbn; [eauto 6 |].
      exists []. rewrite app_nil_r. auto.
    - destruct (first_missing (form req)) as [key |] eqn:Hf.
      + rewrite (game_post_first_missing req draw st key) by eauto.
        exists []. rewrite app_nil_r. auto.
      + apply first_missing_none in Hf
          as (choice & correct & reason & Hch & Hco & Hre).
        rewrite (game_post req draw st sc t choice correct reason) by done.
        cbn zeta.
        match goal with
        | |- context [sqlite_int ?a && sqlite_int ?b] =>
            destruct (sqlite_int a && sqlite_int b)
        end; cbn; [eauto 6 |].
        exists []. rewrite app_nil_r. auto. }
  destruct (session st !! "score") as [sc |] eqn:Hs.
  - destruct (session st !! "total") as [t |] eqn:Ht; [eauto |].
    destruct (game_no_total req draw st) as (o & -> & _); [eauto | done |].
    exists []. rewrite app_nil_r. auto.
  - rewrite game_first_access by done.
    set (st1 := {| session := _; db := db st |}).
    destruct (Hstarted st1 0%Z 0%Z) as (new & Hn & Hid).
    + subst st1. cbn [session]. now rewrite lookup_insert_ne, lookup_insert_eq.
    + subst st1. cbn [session]. now rewrite lookup_insert_eq.
    + exists new. split; [exact Hn | exact Hid].
Qed.

Lemma step_game_rows st r :
  exists new,
    game_scores (db (step st r)) = game_scores (db st) ++ new
    /\ (new = []
        \/ exists row, new = [row]
             /\ gs_id row = next_id (map gs_id (game_scores (db st)))).
Proof.
  destruct r as [req | req draw | | |]; cbn [step].
  - destruct (home_effect req st) as [_ ->].
    exists []. rewrite app_nil_r. auto.
  - apply game_rows.
  - exists []. rewrite app_nil_r. auto.
  - exists []. rewrite app_nil_r. auto.
  - exists []. rewrite app_nil_r. auto.
Qed.

Lemma step_ids st r :
  map scan_id (scans (db st)) = first_ids (length (scans (db st))) ->
  map gs_id (game_scores (db st)) = first_ids (length (game_scores (db st))) ->
  map scan_id (scans (db (step st r)))
    = first_ids (length (scans (db (step st r))))
  /\ map gs_id (game_scores (db (step st r)))
    = first_ids (length (game_scores (db (step st r)))).
Proof.
  intros Hscans Hgame. split.
  - rewrite step_scans. destruct (submitted r); [| now rewrite app_nil_r].
    rewrite map_app, length_app, Nat.add_1_r, first_ids_succ. cbn [map length scan_id].
    now rewrite Hscans, next_id_first_ids.
  - destruct (step_game_rows st r) as (new & -> & [-> | (row & -> & Hid)]).
    + now rewrite app_nil_r.
    + rewrite map_app, length_app, Nat.add_1_r, first_ids_succ. cbn [map length].
      now rewrite Hid, Hgame, next_id_first_ids.
Qed.

Lemma run_ids rs :
  forall st,
    map scan_id (scans (db st)) = first_ids (length (scans (db st))) ->
    map gs_id (game_scores (db st)) = first_ids (length (game_scores (db st))) ->
    map scan_id (scans (db (run st rs)))
      = first_ids (length (scans (db (run st rs))))
    /\ map gs_id (game_scores (db (run st rs)))
      = first_ids (length (game_scores (db (run st rs)))).
Proof.
  induction rs as [| r rs IH]; intros st Hs Hg; [done |].
  rewrite run_cons. destruct (step_ids st r Hs Hg). now apply IH.
Qed.

(** X17.  From an empty database, every run leaves the ids of each
    table equal to 1, 2, ..., N in insertion order: no id is used twice and
    none is left out. *)
Theorem table_ids rs :
  map scan_id (scans (db (run initial_state rs)))
    = first_ids (length (scans (db (run initial_state rs))))
  /\ map gs_id (game_scores (db (run initial_state rs)))
    = first_ids (length (game_scores (db (run initial_state rs)))).
Proof.
  destruct (run_ids rs initial_state) as [Hscans Hgame];
    [reflexivity | reflexivity |].
  split; [exact Hscans | exact Hgame].
Qed.

Lemma run_game_scores_ascending rs :
  StronglySorted Z.lt (map gs_id (game_scores (db (run initial_state rs)))).
Proof.
  destruct (run_ids rs initial_state) as [_ ->]; [done | done |].
  apply first_ids_ascending.
Qed.

Lemma run_scans_ascending rs :
  StronglySorted Z.lt (map scan_id (scans (db (run initial_state rs)))).
Proof.
  destruct (run_ids rs initial_state) as [-> _]; [done | done |].
  apply first_ids_ascending.
Qed.

Lemma scores_listing rs :
  scores (run initial_state rs)
  = (Ok (rev (map score_fields (game_scores (db (run initial_state rs))))),
     run initial_state rs).
Proof.
  unfold scores, select_game_scores.
  rewrite order_by_desc_ascending by apply run_game_scores_ascending.
  now rewrite map_rev.
Qed.

(** X18.  After any run from an empty database, [/scores] lists every
    row of [game_scores], the last one added first, and changes nothing. *)
Theorem scores_newest_first rs :
  scores (run initial_state rs)
  = (Ok (rev (map score_fields (game_scores (db (run initial_state rs))))),
     run initial_state rs).
Proof. apply scores_listing. Qed.

Lemma run_snoc st rs r : run st (rs ++ [r]) = step (run st rs) r.
Proof. unfold run. now rewrite fold_left_app. Qed.

(** X19.  What [/game] has just shown is the first line of [/scores]:
    when a request to [/game] is answered in a state that a run from an
    empty database has reached, the listing starts with the score, the
    total and the level of the page. *)
Theorem game_page_tops_scores rs req draw page st' :
  game req draw (run initial_state rs) = (Ok page, st') ->
  exists older,
    fst (scores st') = Ok ((score page, total page, level page) :: older).
Proof.
  intros Hg.
  assert (st' = run initial_state (rs ++ [Game req draw])) as Hst.
  { rewrite run_snoc. cbn [step]. now rewrite Hg. }
  pose proof (scores_listing (rs ++ [Game req draw])) as Hsc.
  rewrite <- Hst in Hsc. rewrite Hsc. cbn [fst].
  pose proof (game_shown req draw (run initial_state rs)) as Hshown.
  rewrite Hg in Hshown.
  destruct Hshown as (Hl & row & Hrows & Hs & Ht & Hrl).
  rewrite Hrows, map_app, rev_app_distr. cbn. unfold score_fields at 1.
  rewrite Hs, Ht, Hrl, <- Hl. eauto.
Qed.

(** X20.  What [/] has just scanned is the first line of [/history]: when
    a POST to [/] is answered in a state that a run from an empty database
    has reached, the listing starts with the submitted text, the label and
    the percentage of the page. *)
Theorem scan_page_tops_history rs req page st' :
  req_method req = POST ->
  home req (run initial_state rs) = (Ok page, st') ->
  exists older,
    result page = Some (predict (clean_text (email_text page)))
    /\ confidence page
       = Some (percent (predict_proba_max (clean_text (email_text page))))
    /\ fst (history st')
       = Ok ((email_text page, predict (clean_text (email_text page)),
              percent (predict_proba_max (clean_text (email_text page))))
             :: older).
Proof.
  intros Hm Hh.
  destruct (form req !! "email") as [text |] eqn:He;
    [| now rewrite home_post_missing in Hh].
  assert (st' = run initial_state (rs ++ [Home req])) as Hst.
  { rewrite run_snoc. cbn [step]. now rewrite Hh. }
  rewrite (home_post req _ text) in Hh by done.
  injection Hh as <- Hst'.
  cbn [result confidence email_text].
  unfold history, select_scans. cbn [fst].
  rewrite order_by_desc_ascending
    by (rewrite Hst; apply run_scans_ascending).
  rewrite <- Hst'. cbn [db scans].
  rewrite rev_app_distr. cbn. eauto.
Qed.
End TablesMore.


(** ** The further properties at concrete inputs *)

Lemma clean_text_idempotent_on_letters_witness :
  letters_and_spaces (@lower ascii_only (lit "Hello  World")) = true
  /\ @clean_text ascii_only (@clean_text ascii_only (lit "Hello  World"))
     = @clean_text ascii_only (lit "Hello  World").
Proof.
  split; [reflexivity |].
  apply (@clean_text_idempotent_on_letters ascii_only). reflexivity.
Defined.

Lemma clean_text_without_letters_witness :
  no_lowercase (@lower ascii_only (lit " 123 !? 456 ")) = true
  /\ @clean_text ascii_only (lit " 123 !? 456 ") = [].
Proof.
  split; [reflexivity |].
  apply (@clean_text_without_letters ascii_only). reflexivity.
Defined.

Lemma highlight_without_lowercase_witness :
  no_lowercase (lit "URGENT: VERIFY YOUR BANK ACCOUNT 2024") = true
  /\ highlight (lit "URGENT: VERIFY YOUR BANK ACCOUNT 2024")
     = lit "URGENT: VERIFY YOUR BANK ACCOUNT 2024".
Proof.
  split; [reflexivity |].
  apply highlight_without_lowercase. reflexivity.
Defined.

Lemma highlight_every_occurrence_witness :
  In (lit "bank") highlight_forms
  /\ highlight (lit "my" ++ lit "bank" ++ lit "rupt")
     = highlight (lit "my") ++ span (lit "bank") ++ highlight (lit "rupt").
Proof.
  assert (In (lit "bank") highlight_forms) as Hin.
  { do 8 right. left. reflexivity. }
  split; [exact Hin |].
  apply highlight_every_occurrence. exact Hin.
Defined.

Lemma highlight_splits_at_separator_witness :
  in_no_form 32%N = true
  /\ highlight (lit "bank" ++ 32%N :: lit "Login")
     = highlight (lit "bank") ++ 32%N :: highlight (lit "Login").
Proof.
  split; [reflexivity |].
  apply highlight_splits_at_separator. reflexivity.
Defined.

Lemma game_progress_monotone_witness :
  session (@midgame_state always_safe) !! "score" = Some 3%Z
  /\ session (@midgame_state always_safe) !! "total" = Some 5%Z
  /\ exists sc' t',
       session (@run ascii_only always_safe midgame_state
                  (map game_request [(right_answer, 0); (get_request, 1)]))
         !! "score" = Some sc'
       /\ session (@run ascii_only always_safe midgame_state
                     (map game_request [(right_answer, 0); (get_request, 1)]))
            !! "total" = Some t'
       /\ (0 <= sc' - 3 <= t' - 5)%Z
       /\ (t' - 5 <= Z.of_nat (length [(right_answer, 0); (get_request, 1)]))%Z
       /\ (level_rank (level_of 3) <= level_rank (level_of sc'))%Z.
Proof.
  split; [reflexivity |]. split; [reflexivity |].
  apply (@game_progress_monotone ascii_only always_safe
           [(right_answer, 0); (get_request, 1)] midgame_state 3%Z 5%Z);
    reflexivity.
Defined.



Lemma reset_then_game_witness :
  req_method get_request = GET
  /\ @game always_safe get_request 3 (snd (reset_game midgame_state))
     = (Ok {| question := random_choice 3 QUIZ_QUESTIONS no_question;
              feedback := None; score := 0; total := 0; level := Beginner |},
        {| session := started_session;
           db := {| scans := [];
                    game_scores := [{| gs_id := 1; gs_score := 0;
                                       gs_total := 0;
                                       gs_level := Beginner |}] |} |}).
Proof.
  split; [reflexivity |].
  pose proof (@reset_then_game always_safe get_request 3 midgame_state
                eq_refl) as Hgame.
  cbn [db midgame_state scans game_scores empty_db app map] in Hgame.
  exact Hgame.
Defined.

Lemma game_page_tops_scores_witness :
  exists (page : game_page) (st' : @state always_safe),
    @game always_safe get_request 1
      (@run ascii_only always_safe initial_state [Game right_answer 0])
    = (Ok page, st')
    /\ exists older,
         fst (scores st') = Ok ((score page, total page, level page) :: older).
Proof.
  eexists. eexists. split; [vm_compute; reflexivity |].
  apply (@game_page_tops_scores ascii_only always_safe
           [Game right_answer 0] get_request 1). reflexivity.
Defined.

Lemma scan_page_tops_history_witness :
  req_method short_message = POST
  /\ exists (page : @scan_page always_safe) (st' : @state always_safe),
       @home ascii_only always_safe short_message
         (@run ascii_only always_safe initial_state
            [submit (lit "first"); Game get_request 0])
       = (Ok page, st')
       /\ exists older,
            result page
            = Some (@predict always_safe
                      (@clean_text ascii_only (email_text page)))
            /\ confidence page
               = Some (@percent always_safe
                         (@predict_proba_max always_safe
                            (@clean_text ascii_only (email_text page))))
            /\ fst (history st')
               = Ok ((email_text page,
                      @predict always_safe
                        (@clean_text ascii_only (email_text page)),
                      @percent always_safe
                        (@predict_proba_max always_safe
                           (@clean_text ascii_only (email_text page))))
                     :: older).
Proof.
  split; [reflexivity |].
  eexists. eexists. split; [vm_compute; reflexivity |].
  apply (@scan_page_tops_history ascii_only always_safe
           [submit (lit "first"); Game get_request 0] short_message);
    reflexivity.
Defined.
